(** * three_little_birds: a keyboard-driven polyphonic tone synthesizer

    A shallow embedding of the three program variants of the repository

    - [wayDown.py]   arrangement mode, one key per instrument,
    - [afterlife.py] arrangement mode, legato with a held-key set,
    - [synth.py]     scale/bank performance mode with an attack/release
                     envelope,

    followed by the properties of their trigger handlers and render
    callbacks.

    Modelling conventions.
    - Python floats and numpy arrays of floats are real numbers and lists of
      real numbers: rounding is not modelled, so a property that the
      programs have "within floating tolerance" is stated as an exact
      equation over [R].
    - A Python [dict] is an insertion-ordered association list ([Dict]).
    - A handler or callback that can raise returns a [Result]: the state it
      leaves behind and either its value or the exception.
    - The [status] and [time] arguments of the callbacks and the locks are
      left out: each handler and each callback runs atomically. *)

From Stdlib Require Import Reals Lra Lia ZArith List String Ascii Bool.
Import ListNotations.

Local Open Scope R_scope.

(** ** Exceptions and results *)

Inductive Exn : Type :=
| IndexError
| KeyError
| ZeroDivisionError
| TypeError
| SystemExit.

(** [Ok s a]: the call returned [a] and left the state [s];
    [Raise s e]: the call raised [e] after having left the state [s]. *)
Inductive Result (S A : Type) : Type :=
| Ok (s : S) (a : A)
| Raise (s : S) (e : Exn).

Arguments Ok {S A} s a.
Arguments Raise {S A} s e.

Definition state_of {S A : Type} (r : Result S A) : S :=
  match r with
  | Ok s _ => s
  | Raise s _ => s
  end.

(** ** Python dictionaries *)

Module Dict.
Section Dict.
Context {K V : Type}.
Variable eqb : K -> K -> bool.

Definition t : Type := list (K * V).

(** [d.get(k)] *)
Fixpoint get (d : t) (k : K) : option V :=
  match d with
  | [] => None
  | (k', v) :: rest => if eqb k k' then Some v else get rest k
  end.

(** [k in d] *)
Definition mem (d : t) (k : K) : bool :=
  match get d k with
  | Some _ => true
  | None => false
  end.

(** [d[k] = v]: an existing key keeps its place, a new key goes last. *)
Fixpoint set (d : t) (k : K) (v : V) : t :=
  match d with
  | [] => [(k, v)]
  | (k', v') :: rest =>
      if eqb k k' then (k', v) :: rest else (k', v') :: set rest k v
  end.

(** [d.pop(k, None)], the dictionary part *)
Fixpoint remove (d : t) (k : K) : t :=
  match d with
  | [] => []
  | (k', v') :: rest =>
      if eqb k k' then rest else (k', v') :: remove rest k
  end.
End Dict.
End Dict.

(** ** numpy on real vectors *)

(** [np.arange(frames)] *)
Definition arange (frames : nat) : list R := map INR (seq 0 frames).

(** [np.zeros(frames)] *)
Definition zeros (frames : nat) : list R := repeat 0 frames.

(** [np.full(frames, x)] *)
Definition full (frames : nat) (x : R) : list R := repeat x frames.

(** Elementwise operations of two arrays of one length. *)
Fixpoint map2 (f : R -> R -> R) (u v : list R) : list R :=
  match u, v with
  | x :: u', y :: v' => f x y :: map2 f u' v'
  | _, _ => []
  end.

Definition vadd : list R -> list R -> list R := map2 Rplus.
Definition vmul : list R -> list R -> list R := map2 Rmult.

(** [a[-1]]: the last element, [None] where Python raises [IndexError]. *)
Fixpoint last_elt (a : list R) : option R :=
  match a with
  | [] => None
  | [x] => Some x
  | _ :: a' => last_elt a'
  end.

(** [a[i] = x] on a list whose index [i] exists. *)
Fixpoint list_set (a : list R) (i : nat) (x : R) : list R :=
  match a, i with
  | [], _ => []
  | _ :: a', O => x :: a'
  | y :: a', S i' => y :: list_set a' i' x
  end.

(** [x % m] on floats: [x - floor(x / m) * m]. *)
Definition py_mod (x m : R) : R := x - IZR (Int_part (x / m)) * m.

(** [np.clip(x, lo, hi)] on one element: [minimum(maximum(x, lo), hi)]. *)
Definition clip (lo hi x : R) : R := Rmin (Rmax x lo) hi.

(** [np.column_stack((mix, mix))]: one row of two channels per frame. *)
Definition column_stack (u v : list R) : list (R * R) := combine u v.

Definition TWO_PI : R := 2 * PI.

(** ** The pitch table and the arrangement entries of the two arrangement
       variants *)

(** An arrangement entry is a note name or a list of note names; [Other]
    stands for a value of any other type. *)
Inductive NoteData : Type :=
| Single (n : string)
| Chord (ns : list string)
| Other.

Local Open Scope string_scope.

Definition NOTE_FREQUENCIES : Dict.t (K := string) (V := R) :=
  [ ("A0", 27.50); ("A#0", 29.14); ("B0", 30.87);
    ("C1", 32.70); ("C#1", 34.65); ("D1", 36.71); ("D#1", 38.89);
    ("E1", 41.20); ("F1", 43.65); ("F#1", 46.25); ("G1", 49.00);
    ("G#1", 51.91);
    ("A1", 55.00); ("A#1", 58.27); ("B1", 61.74);
    ("C2", 65.41); ("C#2", 69.30); ("D2", 73.42); ("D#2", 77.78);
    ("E2", 82.41); ("F2", 87.31); ("F#2", 92.50); ("G2", 98.00);
    ("G#2", 103.83);
    ("A2", 110.00); ("A#2", 116.54); ("B2", 123.47);
    ("C3", 130.81); ("C#3", 138.59); ("D3", 146.83); ("D#3", 155.56);
    ("E3", 164.81); ("F3", 174.61); ("F#3", 185.00); ("G3", 196.00);
    ("G#3", 207.65);
    ("A3", 220.00); ("A#3", 233.08); ("B3", 246.94);
    ("C4", 261.63); ("C#4", 277.18); ("D4", 293.66); ("D#4", 311.13);
    ("E4", 329.63); ("F4", 349.23); ("F#4", 369.99); ("G4", 392.00);
    ("G#4", 415.30);
    ("A4", 440.00); ("A#4", 466.16); ("B4", 493.88);
    ("C5", 523.25); ("C#5", 554.37); ("D5", 587.33); ("D#5", 622.25);
    ("E5", 659.25); ("F5", 698.46); ("F#5", 739.99); ("G5", 783.99);
    ("G#5", 830.61);
    ("A5", 880.00); ("A#5", 932.33); ("B5", 987.77);
    ("C6", 1046.50); ("C#6", 1108.73); ("D6", 1174.66); ("D#6", 1244.51);
    ("E6", 1318.51); ("F6", 1396.91); ("F#6", 1479.98); ("G6", 1567.98);
    ("G#6", 1661.22);
    ("A6", 1760.00); ("A#6", 1864.66); ("B6", 1975.53);
    ("C7", 2093.00); ("C#7", 2217.46); ("D7", 2349.32); ("D#7", 2489.02);
    ("E7", 2637.02); ("F7", 2793.83); ("F#7", 2959.96); ("G7", 3135.96);
    ("G#7", 3322.44);
    ("A7", 3520.00); ("A#7", 3729.31); ("B7", 3951.07);
    ("C8", 4186.01) ]%R.

(** [[NOTE_FREQUENCIES[n] for n in ns]]: [None] where a name is missing
    and Python raises [KeyError]. *)
Fixpoint lookup_freqs (ns : list string) : option (list R) :=
  match ns with
  | [] => Some []
  | n :: ns' =>
      match Dict.get String.eqb NOTE_FREQUENCIES n, lookup_freqs ns' with
      | Some f, Some fs => Some (f :: fs)
      | _, _ => None
      end
  end.

(** The four module-level [Instrument] objects, by the variable that holds
    them. *)
Inductive Obj : Type := Snowman | Elf | Santa | Reindeer.

(** A key event of the listener: a key with a character, the escape key,
    or another special key. *)
Inductive Key : Type :=
| KeyChar (ch : ascii)
| KeyEsc
| KeySpecial.

Definition SAMPLE_RATE : R := 44100.

(** ** wayDown.py: arrangement mode, one pressed flag per instrument *)

Module WayDown.

Record Instrument : Type := mkInstrument
  { notes : list NoteData;
    name : string;
    index : nat;
    is_pressed : bool }.

Definition NOTES_SNOWMAN : list NoteData :=
  [ Chord ["A#3"; "C#4"; "F4"];
    Chord ["A#3"; "C#4"; "F#3"];
    Chord ["A#3"; "D#3"; "F#3"];
    Chord ["A#3"; "C#4"; "F4"];
    Chord ["A#3"; "C#4"; "F#3"];
    Chord ["A#3"; "D#3"; "F#3"] ].

Definition NOTES_ELF : list NoteData :=
  map Single
    [ "A#4"; "D#5"; "D#5"; "C#5"; "A#4"; "G#4"; "A#4"; "A#4"; "A#4"; "A#4";
      "A#4"; "A#4"; "D#5"; "D#5"; "C#5"; "A#4"; "G#4"; "A#4"; "A#4"; "A#4";
      "A#4"; "A#4" ].

Definition NOTES_SANTA : list NoteData :=
  map Single
    [ "G4"; "C5"; "B4"; "C5"; "D5"; "E5"; "E5"; "D5"; "B4"; "A4"; "G4";
      "E5"; "D5"; "E5"; "F5"; "G5"; "C5"; "C5"; "C5"; "A5"; "A5"; "G5";
      "E5"; "D5"; "C5"; "C5"; "D5"; "C5" ].

Definition NOTES_REINDEER : list NoteData := [ Single "A4" ].

(** The instrument objects. *)
Record Insts : Type := mkInsts
  { snowman : Instrument;
    elf : Instrument;
    santa : Instrument;
    reindeer : Instrument }.

Definition get_inst (ins : Insts) (o : Obj) : Instrument :=
  match o with
  | Snowman => snowman ins
  | Elf => elf ins
  | Santa => santa ins
  | Reindeer => reindeer ins
  end.

Definition set_inst (ins : Insts) (o : Obj) (i : Instrument) : Insts :=
  match o with
  | Snowman => mkInsts i (elf ins) (santa ins) (reindeer ins)
  | Elf => mkInsts (snowman ins) i (santa ins) (reindeer ins)
  | Santa => mkInsts (snowman ins) (elf ins) i (reindeer ins)
  | Reindeer => mkInsts (snowman ins) (elf ins) (santa ins) i
  end.

(** The module-level state: the two dictionaries and the four objects. *)
Record State : Type := mkState
  { active_freqs : Dict.t (K := string) (V := option (list R));
    phases : Dict.t (K := string) (V := list R);
    insts : Insts }.

Definition init : State :=
  {| active_freqs :=
       [ ("snowman", None); ("elf", None); ("santa", None);
         ("reindeer", None) ];
     phases :=
       [ ("snowman", []); ("elf", []); ("santa", []); ("reindeer", []) ];
     insts :=
       {| snowman := mkInstrument NOTES_SNOWMAN "snowman" 0 false;
          elf := mkInstrument NOTES_ELF "elf" 0 false;
          santa := mkInstrument NOTES_SANTA "santa" 0 false;
          reindeer := mkInstrument NOTES_REINDEER "reindeer" 0 false |} |}.

Definition KEYMAP : Dict.t (K := ascii) (V := Obj) :=
  [ ("a"%char, Snowman); ("f"%char, Elf); ("j"%char, Santa);
    (";"%char, Reindeer) ].

(** The oscillator loop of one instrument.  [i] is the index of
    [enumerate]; [ph[-1]] is the phase of the last frame of the block. *)
Fixpoint osc_loop (t : list R) (freqs : list R) (i : nat)
    (phases_list chord_mix : list R) : Result (list R) (list R) :=
  match freqs with
  | [] => Ok phases_list chord_mix
  | freq :: freqs' =>
      match nth_error phases_list i with
      | None => Raise phases_list IndexError
      | Some phase =>
          let phase_inc := (2 * PI * freq) / SAMPLE_RATE in
          let ph := map (fun x => phase + phase_inc * x) t in
          let tone := map (fun x => 0.22 * sin x) ph in
          match last_elt ph with
          | None => Raise phases_list IndexError
          | Some ph_last =>
              osc_loop t freqs' (S i)
                (list_set phases_list i (py_mod ph_last (2 * PI)))
                (vadd chord_mix tone)
          end
      end
  end.

(** The loop over [active_freqs.items()]. *)
Fixpoint inst_loop (frames : nat) (t : list R)
    (items : list (string * option (list R)))
    (phs : Dict.t (K := string) (V := list R)) (mix : list R)
  : Result (Dict.t (K := string) (V := list R)) (list R) :=
  match items with
  | [] => Ok phs mix
  | (_, None) :: items' => inst_loop frames t items' phs mix
  | (nm, Some freqs) :: items' =>
      match Dict.get String.eqb phs nm with
      | None => Raise phs KeyError
      | Some phases_list =>
          match osc_loop t freqs 0 phases_list (zeros frames) with
          | Raise pl e => Raise (Dict.set String.eqb phs nm pl) e
          | Ok pl chord_mix =>
              inst_loop frames t items' (Dict.set String.eqb phs nm pl)
                (vadd mix chord_mix)
          end
      end
  end.

(** [audio_callback(outdata, frames, time, status)]: the new state and the
    rows written to [outdata]. *)
Definition audio_callback (frames : nat) (st : State)
  : Result State (list (R * R)) :=
  let t := arange frames in
  match inst_loop frames t (active_freqs st) (phases st) (zeros frames) with
  | Raise phs e => Raise (mkState (active_freqs st) phs (insts st)) e
  | Ok phs mix =>
      let mix := map (clip (-1) 1) mix in
      Ok (mkState (active_freqs st) phs (insts st)) (column_stack mix mix)
  end.

Definition set_pressed (i : Instrument) (b : bool) : Instrument :=
  mkInstrument (notes i) (name i) (index i) b.

Definition set_index (i : Instrument) (n : nat) : Instrument :=
  mkInstrument (notes i) (name i) n (is_pressed i).

(** The two assignments that install the oscillators of an instrument. *)
Definition install (st : State) (nm : string) (freqs : list R) : State :=
  mkState (Dict.set String.eqb (active_freqs st) nm (Some freqs))
          (Dict.set String.eqb (phases st) nm (map (fun _ => 0) freqs))
          (insts st).

Definition start_note (o : Obj) (st : State) : Result State unit :=
  let inst := get_inst (insts st) o in
  if is_pressed inst || (List.length (notes inst) =? 0)%nat then Ok st tt
  else
    let st1 :=
      mkState (active_freqs st) (phases st)
              (set_inst (insts st) o (set_pressed inst true)) in
    match nth_error (notes inst) (index inst) with
    | None => Raise st1 IndexError
    | Some (Single n) =>
        match Dict.get String.eqb NOTE_FREQUENCIES n with
        | None => Raise st1 KeyError
        | Some f => Ok (install st1 (name inst) [f]) tt
        end
    | Some (Chord ns) =>
        match lookup_freqs ns with
        | None => Raise st1 KeyError
        | Some freqs => Ok (install st1 (name inst) freqs) tt
        end
    | Some Other => Ok st1 tt
    end.

Definition stop_note (o : Obj) (st : State) : Result State unit :=
  let inst := get_inst (insts st) o in
  if negb (is_pressed inst) then Ok st tt
  else
    let inst1 := set_pressed inst false in
    let af := Dict.set String.eqb (active_freqs st) (name inst) None in
    let phs := Dict.set String.eqb (phases st) (name inst) [] in
    match List.length (notes inst) with
    | O => Raise (mkState af phs (set_inst (insts st) o inst1))
                 ZeroDivisionError
    | S _ =>
        Ok (mkState af phs
              (set_inst (insts st) o
                 (set_index inst1
                    ((index inst + 1) mod List.length (notes inst))%nat)))
           tt
    end.

Definition on_press (key : Key) (st : State) : Result State unit :=
  match key with
  | KeyChar ch =>
      match Dict.get Ascii.eqb KEYMAP ch with
      | Some o => start_note o st
      | None => Ok st tt
      end
  | KeyEsc => Raise st SystemExit
  | KeySpecial => Ok st tt
  end.

Definition on_release (key : Key) (st : State) : Result State unit :=
  match key with
  | KeyChar ch =>
      match Dict.get Ascii.eqb KEYMAP ch with
      | Some o => stop_note o st
      | None => Ok st tt
      end
  | _ => Ok st tt
  end.

End WayDown.

(** ** afterlife.py: arrangement mode, legato with a held-key set *)

Module Afterlife.

(** [held_keys] is a Python set: a list without duplicates. *)
Record Instrument : Type := mkInstrument
  { notes : list NoteData;
    name : string;
    index : nat;
    held_keys : list ascii }.

Definition NOTES_SNOWMAN : list NoteData :=
  [ Single "D4"; Single "F4"; Single "D4"; Single "A3";
    Single "D4"; Single "F4"; Single "D4"; Single "A3";
    Chord ["D3"; "A3"];
    Chord ["D3"; "A3"];
    Chord ["D3"; "A3"];
    Single "D4"; Single "F4"; Single "D4"; Single "A3";
    Single "D4"; Single "F4"; Single "D4"; Single "A3";
    Chord ["D3"; "A3"];
    Chord ["D3"; "A3"];
    Chord ["D3"; "A3"];
    Chord ["C4"; "F3"]; Chord ["D4"; "G3"]; Chord ["D#4"; "G#3"];
    Single "D4"; Single "F4"; Single "D4"; Single "A3";
    Single "D4"; Single "F4"; Single "D4"; Single "A3";
    Chord ["D3"; "A3"];
    Chord ["D3"; "A3"];
    Chord ["D3"; "A3"];
    Single "D4"; Single "F4"; Single "D4"; Single "A3";
    Single "D4"; Single "F4"; Single "D4"; Single "A3";
    Chord ["D3"; "A3"];
    Chord ["D3"; "A3"];
    Chord ["D3"; "A3"];
    Chord ["C4"; "F3"]; Chord ["D4"; "G3"]; Chord ["D#4"; "G#3"];
    Chord ["D#4"; "G#3"]; Chord ["D4"; "G3"]; Chord ["C4"; "F3"] ].

Definition NOTES_ELF : list NoteData := [ Single "G4" ].
Definition NOTES_SANTA : list NoteData := [ Single "G4" ].
Definition NOTES_REINDEER : list NoteData := [ Single "A4" ].

Record Insts : Type := mkInsts
  { snowman : Instrument;
    elf : Instrument;
    santa : Instrument;
    reindeer : Instrument }.

Definition get_inst (ins : Insts) (o : Obj) : Instrument :=
  match o with
  | Snowman => snowman ins
  | Elf => elf ins
  | Santa => santa ins
  | Reindeer => reindeer ins
  end.

Definition set_inst (ins : Insts) (o : Obj) (i : Instrument) : Insts :=
  match o with
  | Snowman => mkInsts i (elf ins) (santa ins) (reindeer ins)
  | Elf => mkInsts (snowman ins) i (santa ins) (reindeer ins)
  | Santa => mkInsts (snowman ins) (elf ins) i (reindeer ins)
  | Reindeer => mkInsts (snowman ins) (elf ins) (santa ins) i
  end.

Record State : Type := mkState
  { active_freqs : Dict.t (K := string) (V := option (list R));
    phases : Dict.t (K := string) (V := list R);
    insts : Insts }.

Definition init : State :=
  {| active_freqs :=
       [ ("snowman", None); ("elf", None); ("santa", None);
         ("reindeer", None) ];
     phases :=
       [ ("snowman", []); ("elf", []); ("santa", []); ("reindeer", []) ];
     insts :=
       {| snowman := mkInstrument NOTES_SNOWMAN "snowman" 0 [];
          elf := mkInstrument NOTES_ELF "elf" 0 [];
          santa := mkInstrument NOTES_SANTA "santa" 0 [];
          reindeer := mkInstrument NOTES_REINDEER "reindeer" 0 [] |} |}.

Definition KEYMAP : Dict.t (K := ascii) (V := Obj) :=
  [ ("e"%char, Snowman); ("f"%char, Snowman); ("j"%char, Snowman);
    ("p"%char, Elf); ("o"%char, Santa); ("i"%char, Reindeer) ].

(** The oscillator loop of the instrument [nm]; [phases[name][i]] is read
    and written through the dictionary at every turn. *)
Fixpoint osc_loop (frames : nat) (t : list R) (nm : string)
    (freqs : list R) (i : nat)
    (phs : Dict.t (K := string) (V := list R)) (chord_mix : list R)
  : Result (Dict.t (K := string) (V := list R)) (list R) :=
  match freqs with
  | [] => Ok phs chord_mix
  | freq :: freqs' =>
      match Dict.get String.eqb phs nm with
      | None => Raise phs KeyError
      | Some phases_list =>
          match nth_error phases_list i with
          | None => Raise phs IndexError
          | Some ph =>
              let inc := (2 * PI * freq) / SAMPLE_RATE in
              let wave := map (fun x => 0.22 * sin (ph + inc * x)) t in
              osc_loop frames t nm freqs' (S i)
                (Dict.set String.eqb phs nm
                   (list_set phases_list i
                      (py_mod (ph + inc * INR frames) (2 * PI))))
                (vadd chord_mix wave)
          end
      end
  end.

Fixpoint inst_loop (frames : nat) (t : list R)
    (items : list (string * option (list R)))
    (phs : Dict.t (K := string) (V := list R)) (mix : list R)
  : Result (Dict.t (K := string) (V := list R)) (list R) :=
  match items with
  | [] => Ok phs mix
  | (_, None) :: items' => inst_loop frames t items' phs mix
  | (nm, Some freqs) :: items' =>
      match osc_loop frames t nm freqs 0 phs (zeros frames) with
      | Raise phs' e => Raise phs' e
      | Ok phs' chord_mix =>
          inst_loop frames t items' phs' (vadd mix chord_mix)
      end
  end.

Definition audio_callback (frames : nat) (st : State)
  : Result State (list (R * R)) :=
  let t := arange frames in
  match inst_loop frames t (active_freqs st) (phases st) (zeros frames) with
  | Raise phs e => Raise (mkState (active_freqs st) phs (insts st)) e
  | Ok phs mix =>
      let mix := map (clip (-1) 1) mix in
      Ok (mkState (active_freqs st) phs (insts st)) (column_stack mix mix)
  end.

Definition set_index (i : Instrument) (n : nat) : Instrument :=
  mkInstrument (notes i) (name i) n (held_keys i).

Definition set_held (i : Instrument) (h : list ascii) : Instrument :=
  mkInstrument (notes i) (name i) (index i) h.

(** [ch in held_keys], [held_keys.add(ch)], [held_keys.discard(ch)] *)
Definition held (h : list ascii) (ch : ascii) : bool :=
  existsb (Ascii.eqb ch) h.

Definition add_key (h : list ascii) (ch : ascii) : list ascii :=
  if held h ch then h else h ++ [ch].

Definition discard_key (h : list ascii) (ch : ascii) : list ascii :=
  filter (fun c => negb (Ascii.eqb ch c)) h.

(** Trigger the next note at once on press; the cursor moves here.  A
    value that is neither a string nor a list is taken not to be iterable. *)
Definition start_note (o : Obj) (st : State) : Result State unit :=
  let inst := get_inst (insts st) o in
  match nth_error (notes inst) (index inst) with
  | None => Raise st IndexError
  | Some note_data =>
      let freqs :=
        match note_data with
        | Single n =>
            match Dict.get String.eqb NOTE_FREQUENCIES n with
            | Some f => inl [f]
            | None => inr KeyError
            end
        | Chord ns =>
            match lookup_freqs ns with
            | Some fs => inl fs
            | None => inr KeyError
            end
        | Other => inr TypeError
        end in
      match freqs with
      | inr e => Raise st e
      | inl freqs =>
          Ok (mkState
                (Dict.set String.eqb (active_freqs st) (name inst)
                   (Some freqs))
                (Dict.set String.eqb (phases st) (name inst)
                   (map (fun _ => 0) freqs))
                (set_inst (insts st) o
                   (set_index inst
                      ((index inst + 1) mod List.length (notes inst))%nat)))
             tt
      end
  end.

(** Stop the sound. *)
Definition stop_note (o : Obj) (st : State) : State :=
  let inst := get_inst (insts st) o in
  mkState (Dict.set String.eqb (active_freqs st) (name inst) None)
          (Dict.set String.eqb (phases st) (name inst) [])
          (insts st).

Definition on_press (key : Key) (st : State) : Result State unit :=
  match key with
  | KeyChar ch =>
      match Dict.get Ascii.eqb KEYMAP ch with
      | Some o =>
          let inst := get_inst (insts st) o in
          if held (held_keys inst) ch then Ok st tt
          else
            start_note o
              (mkState (active_freqs st) (phases st)
                 (set_inst (insts st) o
                    (set_held inst (add_key (held_keys inst) ch))))
      | None => Ok st tt
      end
  | KeyEsc => Raise st SystemExit
  | KeySpecial => Ok st tt
  end.

Definition on_release (key : Key) (st : State) : State :=
  match key with
  | KeyChar ch =>
      match Dict.get Ascii.eqb KEYMAP ch with
      | Some o =>
          let inst := get_inst (insts st) o in
          let st1 :=
            mkState (active_freqs st) (phases st)
              (set_inst (insts st) o
                 (set_held inst (discard_key (held_keys inst) ch))) in
          match discard_key (held_keys inst) ch with
          | [] => stop_note o st1
          | _ :: _ => st1
          end
      | None => st
      end
  | _ => st
  end.

End Afterlife.

(** ** synth.py: scale/bank performance mode *)

Module Synth.

Local Open Scope Z_scope.

(** One entry of [active_notes]: the dictionary with the keys ["phase"],
    ["env_level"] and ["env_state"]. *)
Record Note : Type := mkNote
  { phase : R;
    env_level : R;
    env_state : string }.

(** The module-level state.  [bank_scales] is filled once at import time
    and only read afterwards. *)
Record State : Type := mkState
  { bank_scales : Dict.t (K := ascii) (V := list Z);
    current_bank : option ascii;
    current_octave_offset : Z;
    active_notes : Dict.t (K := Z) (V := Note);
    key_to_midis : Dict.t (K := ascii) (V := list Z) }.

Definition BANK_SCALES : Dict.t (K := ascii) (V := list Z) :=
  [ ("a"%char, [58; 60; 62; 63; 65; 67; 69]);
    ("w"%char, [60; 62; 63; 65; 67; 69; 70]);
    ("s"%char, [62; 63; 65; 67; 69; 70; 72]);
    ("e"%char, [63; 65; 67; 69; 70; 72; 74]);
    ("d"%char, [65; 67; 69; 70; 72; 74; 75]);
    ("r"%char, [67; 69; 70; 72; 74; 75; 77]);
    ("f"%char, [69; 70; 72; 74; 75; 77; 79]) ].

Definition BLOCK_SIZE : nat := 256.
Definition ATTACK_TIME : R := 0.01.
Definition RELEASE_TIME : R := 0.05.
Definition MASTER_GAIN : R := 0.4.

Definition MIN_OCTAVE_OFFSET : Z := -2.
Definition MAX_OCTAVE_OFFSET : Z := 2.

Definition init : State :=
  {| bank_scales := BANK_SCALES;
     current_bank := None;
     current_octave_offset := 0;
     active_notes := [];
     key_to_midis := [] |}.

Definition BANK_KEYS : list ascii :=
  [ "a"; "w"; "s"; "e"; "d"; "r"; "f" ]%char.

Definition PLAYABLE_KEY_TO_DEGREE : Dict.t (K := ascii) (V := nat) :=
  [ ("j"%char, 0%nat); ("i"%char, 1%nat); ("k"%char, 2%nat);
    ("o"%char, 3%nat); ("l"%char, 4%nat); ("p"%char, 5%nat);
    (";"%char, 6%nat) ].

Definition OCTAVE_DOWN_KEY : ascii := "v".
Definition OCTAVE_UP_KEY : ascii := "b".

(** [440.0 * (2.0 ** ((midi - 69) / 12.0))] *)
Definition midi_to_freq (midi : Z) : R :=
  (440 * Rpower 2 ((IZR midi - 69) / 12))%R.

(** [int(x)]: truncation toward zero. *)
Definition py_int (x : R) : Z :=
  if Rle_dec 0 x then Int_part x else - Int_part (- x).

(** [char.lower()] on an ASCII character. *)
Definition lower (c : ascii) : ascii :=
  let n := nat_of_ascii c in
  if ((65 <=? n) && (n <=? 90))%nat then ascii_of_nat (n + 32) else c.

Definition set_active_notes (st : State) (an : Dict.t (K := Z) (V := Note))
  : State :=
  mkState (bank_scales st) (current_bank st) (current_octave_offset st)
          an (key_to_midis st).

Definition set_env_state (n : Note) (s : string) : Note :=
  mkNote (phase n) (env_level n) s.

(** Register a note as active for a given key. *)
Definition add_note_for_key (key_char : ascii) (midi : Z) (st : State)
  : State :=
  let held :=
    match Dict.get Ascii.eqb (key_to_midis st) key_char with
    | Some l => l
    | None => []
    end in
  let ktm :=
    Dict.set Ascii.eqb (key_to_midis st) key_char
      (if existsb (Z.eqb midi) held then held else (held ++ [midi])%list) in
  let an :=
    match Dict.get Z.eqb (active_notes st) midi with
    | None =>
        Dict.set Z.eqb (active_notes st) midi (mkNote 0 0 "attack")
    | Some note =>
        if String.eqb (env_state note) "release"
        then Dict.set Z.eqb (active_notes st) midi
               (set_env_state note "attack")
        else active_notes st
    end in
  mkState (bank_scales st) (current_bank st) (current_octave_offset st)
          an ktm.

(** The loop of [release_notes_for_key] over the popped list. *)
Fixpoint release_loop (midi_list : list Z)
    (an : Dict.t (K := Z) (V := Note)) : Dict.t (K := Z) (V := Note) :=
  match midi_list with
  | [] => an
  | midi :: rest =>
      match Dict.get Z.eqb an midi with
      | Some note =>
          release_loop rest
            (Dict.set Z.eqb an midi (set_env_state note "release"))
      | None => release_loop rest an
      end
  end.

(** Put all notes associated with this key into the release state. *)
Definition release_notes_for_key (key_char : ascii) (st : State) : State :=
  let midi_list :=
    match Dict.get Ascii.eqb (key_to_midis st) key_char with
    | Some l => l
    | None => []
    end in
  mkState (bank_scales st) (current_bank st) (current_octave_offset st)
          (release_loop midi_list (active_notes st))
          (Dict.remove Ascii.eqb (key_to_midis st) key_char).

(** [max(1, int(seconds * SAMPLE_RATE))] *)
Definition total_samples (seconds : R) : Z :=
  Z.max 1 (py_int (seconds * SAMPLE_RATE)).

(** The ramp [np.clip(env_level + step * np.arange(frames), 0.0, 1.0)]
    toward [target]. *)
Definition ramp (frames : nat) (seconds target env_level : R) : list R :=
  let step := ((target - env_level) / IZR (total_samples seconds))%R in
  map (clip 0 1)
      (map (fun n => (env_level + step * n)%R) (arange frames)).

(** The envelope of one note over one block: the vector, the level and
    the state to store back, and whether the note is to be removed.
    [None] where [env_vec[-1]] raises [IndexError]. *)
Definition envelope (frames : nat) (env_state : string) (env_level : R)
  : option (list R * R * string * bool) :=
  if String.eqb env_state "attack" then
    let env_vec := ramp frames ATTACK_TIME 1 env_level in
    match last_elt env_vec with
    | None => None
    | Some env_level_end =>
        if Rle_dec 0.999 env_level_end
        then Some (full frames 1, 1%R, "sustain", false)
        else Some (env_vec, env_level_end, env_state, false)
    end
  else if String.eqb env_state "sustain" then
    Some (full frames env_level, env_level, env_state, false)
  else if String.eqb env_state "release" then
    let env_vec := ramp frames RELEASE_TIME 0 env_level in
    match last_elt env_vec with
    | None => None
    | Some env_level_end =>
        Some (env_vec, env_level_end, env_state,
              if Rle_dec env_level_end 0.001 then true else false)
    end
  else Some (zeros frames, 0%R, env_state, false).

(** The body of the loop over the notes: the enveloped wave, the note as
    stored back, and whether it is scheduled for removal. *)
Definition render_note (frames : nat) (t : list R) (midi : Z) (note : Note)
  : option (list R * Note * bool) :=
  let freq := midi_to_freq midi in
  let omega := (2 * PI * freq)%R in
  let phase_array := map (fun x => (phase note + omega * x)%R) t in
  let wave := map (fun p => (sin p + 0.3 * sin (2 * p))%R) phase_array in
  match envelope frames (env_state note) (env_level note) with
  | None => None
  | Some (env_vec, env_level_end, env_state', remove) =>
      match last_elt phase_array with
      | None => None
      | Some p_last =>
          Some (vmul wave env_vec,
                mkNote (py_mod (p_last + omega / SAMPLE_RATE) (2 * PI))
                       env_level_end env_state',
                remove)
      end
  end.

(** The loop over [active_notes.items()].  Every note is updated in
    place, so the dictionary after the loop holds the rendered notes in
    the same order; the value is the mix and [notes_to_remove]. *)
Fixpoint note_loop (frames : nat) (t : list R) (items : list (Z * Note))
    (sig : list R) : Result (list (Z * Note)) (list R * list Z) :=
  match items with
  | [] => Ok [] (sig, [])
  | (midi, note) :: items' =>
      match render_note frames t midi note with
      | None => Raise items IndexError
      | Some (wave, note', remove) =>
          match note_loop frames t items' (vadd sig wave) with
          | Ok rest (sig', rm) =>
              Ok ((midi, note') :: rest)
                 (sig', if remove then midi :: rm else rm)
          | Raise rest e => Raise ((midi, note') :: rest) e
          end
      end
  end.

(** [for midi in notes_to_remove: active_notes.pop(midi, None)] *)
Definition remove_notes (an : Dict.t (K := Z) (V := Note)) (rm : list Z)
  : Dict.t (K := Z) (V := Note) :=
  fold_left (Dict.remove Z.eqb) rm an.

(** [audio_callback(outdata, frames, time, status)]: the new state and the
    signal written to every channel of [outdata]. *)
Definition audio_callback (frames : nat) (st : State)
  : Result State (list R) :=
  let t := map (fun n => (n / SAMPLE_RATE)%R) (arange frames) in
  match active_notes st with
  | [] => Ok st (zeros frames)
  | _ :: _ =>
      match note_loop frames t (active_notes st) (zeros frames) with
      | Raise an e => Raise (set_active_notes st an) e
      | Ok an (sig, notes_to_remove) =>
          let an' := remove_notes an notes_to_remove in
          let num_active := Nat.max 1 (List.length an') in
          Ok (set_active_notes st an')
             (map (fun x => (x * (MASTER_GAIN / INR num_active))%R) sig)
      end
  end.

(** What the handlers print. *)
Inductive Msg : Type :=
| BankSelected (c : ascii)
| Octave (offset : Z)
| NoBankSelected
| BankNotPopulated (c : ascii).

(** [char in key_to_midis and key_to_midis[char]] *)
Definition holding (st : State) (char : ascii) : bool :=
  match Dict.get Ascii.eqb (key_to_midis st) char with
  | Some (_ :: _) => true
  | _ => false
  end.

Definition on_press (key : Key) (st : State) : Result State (list Msg) :=
  match key with
  | KeyChar ch =>
      let char := lower ch in
      if holding st char then Ok st []
      else if existsb (Ascii.eqb char) BANK_KEYS then
        Ok (mkState (bank_scales st) (Some char) (current_octave_offset st)
              (active_notes st) (key_to_midis st))
           [BankSelected char]
      else if Ascii.eqb char OCTAVE_DOWN_KEY then
        if MIN_OCTAVE_OFFSET <? current_octave_offset st then
          Ok (mkState (bank_scales st) (current_bank st)
                (current_octave_offset st - 1)
                (active_notes st) (key_to_midis st))
             [Octave (current_octave_offset st - 1)]
        else Ok st []
      else if Ascii.eqb char OCTAVE_UP_KEY then
        if current_octave_offset st <? MAX_OCTAVE_OFFSET then
          Ok (mkState (bank_scales st) (current_bank st)
                (current_octave_offset st + 1)
                (active_notes st) (key_to_midis st))
             [Octave (current_octave_offset st + 1)]
        else Ok st []
      else
        match Dict.get Ascii.eqb PLAYABLE_KEY_TO_DEGREE char with
        | None => Ok st []
        | Some degree_index =>
            match current_bank st with
            | None => Ok st [NoBankSelected]
            | Some bank =>
                let scale :=
                  match Dict.get Ascii.eqb (bank_scales st) bank with
                  | Some s => s
                  | None => []
                  end in
                if negb (List.length scale =? 7)%nat then
                  Ok st [BankNotPopulated bank]
                else
                  match nth_error scale degree_index with
                  | None => Raise st IndexError
                  | Some base_midi =>
                      let midi :=
                        base_midi + current_octave_offset st * 12 in
                      Ok (add_note_for_key char midi st) []
                  end
            end
        end
  | _ => Ok st []
  end.

Definition on_release (key : Key) (st : State) : State :=
  match key with
  | KeyChar ch =>
      let char := lower ch in
      if Dict.mem Ascii.eqb PLAYABLE_KEY_TO_DEGREE char
      then release_notes_for_key char st
      else st
  | _ => st
  end.

(** The envelope levels of all notes lie between 0 and 1. *)
Definition levels_ok (st : State) : Prop :=
  Forall (fun kv => (0 <= env_level (snd kv) <= 1)%R) (active_notes st).

(** One step of the program: a key goes down, a key goes up, or the audio
    backend asks for a block of [frames] samples. *)
Inductive Step : State -> State -> Prop :=
| step_press key st : Step st (state_of (on_press key st))
| step_release key st : Step st (on_release key st)
| step_render frames st : Step st (state_of (audio_callback frames st)).

Inductive Run : State -> State -> Prop :=
| run_nil st : Run st st
| run_step st1 st2 st3 : Run st1 st2 -> Step st2 st3 -> Run st1 st3.

End Synth.

(** ** States used in the examples *)

(** [wayDown.py] after one press of the key of the reindeer from the
    initial state: its A4 sounds, with phase 0. *)
Definition wayDown_A4 : WayDown.State :=
  state_of (WayDown.on_press (KeyChar ";") WayDown.init).

(** A sample, or a row of two samples, within the range of the output. *)
Definition in_unit (x : R) : Prop := -1 <= x <= 1.

Definition row_in_unit (row : R * R) : Prop :=
  in_unit (fst row) /\ in_unit (snd row).

(** [synth.py] with the bank [a] selected, no key held, and the voice of
    pitch 58 half way down its release. *)
Definition synth_releasing : Synth.State :=
  {| Synth.bank_scales := Synth.BANK_SCALES;
     Synth.current_bank := Some "a"%char;
     Synth.current_octave_offset := 0;
     Synth.active_notes := [(58%Z, Synth.mkNote 1 0.5 "release")];
     Synth.key_to_midis := [] |}.

(** [synth.py] after the bank [a] was selected and the octave moved one
    down. *)
Definition synth_bank_a_down : Synth.State :=
  state_of (Synth.on_press (KeyChar "v")
    (state_of (Synth.on_press (KeyChar "a") Synth.init))).

(** [synth.py] after the bank [a] was selected and the octave moved two
    up. *)
Definition synth_bank_a_up2 : Synth.State :=
  state_of (Synth.on_press (KeyChar "b")
    (state_of (Synth.on_press (KeyChar "b")
      (state_of (Synth.on_press (KeyChar "a") Synth.init))))).

(** [synth.py] with a bank selected that holds three pitches only. *)
Definition synth_short_bank : Synth.State :=
  {| Synth.bank_scales := [("a"%char, [60; 62; 64]%Z)];
     Synth.current_bank := Some "a"%char;
     Synth.current_octave_offset := 0;
     Synth.active_notes := [];
     Synth.key_to_midis := [] |}.

(** [synth.py] after the bank [a] was selected, the key of degree 1 went
    down and one block of [BLOCK_SIZE] frames was rendered. *)
Definition synth_first_block : Synth.State :=
  state_of (Synth.audio_callback Synth.BLOCK_SIZE
    (state_of (Synth.on_press (KeyChar "j")
      (state_of (Synth.on_press (KeyChar "a") Synth.init))))).

(** [afterlife.py] after the key [e] of the snowman went down. *)
Definition afterlife_e_down : Afterlife.State :=
  state_of (Afterlife.on_press (KeyChar "e") Afterlife.init).

(** [synth.py] with the bank [f] selected and the voice of pitch 69 at
    full level at the start of its release: the key of degree 1 went
    down, a block of 2205 frames was rendered, and the key went up. *)
Definition synth_full_release : Synth.State :=
  {| Synth.bank_scales := Synth.BANK_SCALES;
     Synth.current_bank := Some "f"%char;
     Synth.current_octave_offset := 0;
     Synth.active_notes := [(69%Z, Synth.mkNote 0 1 "release")];
     Synth.key_to_midis := [] |}.

(** [synth.py] with five voices, the pitches 45, 57, 69, 81 and 93 (the
    note A in five octaves), each at a phase of a third of a turn and at
    full level at the start of its release. *)
Definition synth_five_released : Synth.State :=
  {| Synth.bank_scales := Synth.BANK_SCALES;
     Synth.current_bank := Some "s"%char;
     Synth.current_octave_offset := 2;
     Synth.active_notes :=
       [ (45%Z, Synth.mkNote (2 * (PI / 3)) 1 "release");
         (57%Z, Synth.mkNote (2 * (PI / 3)) 1 "release");
         (81%Z, Synth.mkNote (2 * (PI / 3)) 1 "release");
         (69%Z, Synth.mkNote (2 * (PI / 3)) 1 "release");
         (93%Z, Synth.mkNote (2 * (PI / 3)) 1 "release") ];
     Synth.key_to_midis := [] |}.

(** * Properties *)

Local Open Scope list_scope.
Local Open Scope R_scope.

(** ** Dictionaries *)

Section DictFacts.
Context {K V : Type}.
Variable eqb : K -> K -> bool.
Hypothesis eqb_eq : forall a b, eqb a b = true <-> a = b.

Let eqb_refl (a : K) : eqb a a = true.
Proof. now apply eqb_eq. Qed.

Let eqb_neq (a b : K) : a <> b -> eqb a b = false.
Proof.
  intros Hab. destruct (eqb a b) eqn:E; [|reflexivity].
  now apply eqb_eq in E.
Qed.

Lemma get_set_same (d : Dict.t (K := K) (V := V)) k v :
  Dict.get eqb (Dict.set eqb d k v) k = Some v.
Proof.
  induction d as [|[k' v'] d IH]; simpl.
  - now rewrite eqb_refl.
  - destruct (eqb k k') eqn:E; simpl; rewrite E; [reflexivity|exact IH].
Qed.

Lemma get_set_other (d : Dict.t (K := K) (V := V)) k k' v :
  k' <> k -> Dict.get eqb (Dict.set eqb d k v) k' = Dict.get eqb d k'.
Proof.
  intros Hne. induction d as [|[k0 v0] d IH]; simpl.
  - now rewrite (eqb_neq _ _ Hne).
  - destruct (eqb k k0) eqn:E; simpl.
    + apply eqb_eq in E; subst k0. now rewrite (eqb_neq _ _ Hne).
    + now rewrite IH.
Qed.

Lemma get_In (d : Dict.t (K := K) (V := V)) k v :
  Dict.get eqb d k = Some v -> In (k, v) d.
Proof.
  induction d as [|[k' v'] d IH]; simpl; [discriminate|].
  destruct (eqb k k') eqn:E.
  - intros [= ->]. apply eqb_eq in E; subst. now left.
  - intros H. right. now apply IH.
Qed.

Lemma get_None_keys (d : Dict.t (K := K) (V := V)) k :
  Dict.get eqb d k = None <-> ~ In k (map fst d).
Proof.
  induction d as [|[k' v'] d IH]; simpl.
  - tauto.
  - destruct (eqb k k') eqn:E.
    + apply eqb_eq in E; subst. split; [discriminate|]. intros H.
      exfalso; apply H; now left.
    + rewrite IH. split.
      * intros H [H1|H1]; [|tauto]. subst.
        rewrite eqb_refl in E; discriminate.
      * tauto.
Qed.

Lemma keys_set_present (d : Dict.t (K := K) (V := V)) k v v0 :
  Dict.get eqb d k = Some v0 ->
  map fst (Dict.set eqb d k v) = map fst d.
Proof.
  induction d as [|[k' v'] d IH]; simpl; [discriminate|].
  destruct (eqb k k') eqn:E; simpl; [reflexivity|].
  intros H. now rewrite IH.
Qed.

Lemma keys_remove_incl (d : Dict.t (K := K) (V := V)) k x :
  In x (map fst (Dict.remove eqb d k)) -> In x (map fst d).
Proof.
  induction d as [|[k' v'] d IH]; simpl; [tauto|].
  destruct (eqb k k'); simpl; tauto.
Qed.

Lemma nodup_remove (d : Dict.t (K := K) (V := V)) k :
  NoDup (map fst d) -> NoDup (map fst (Dict.remove eqb d k)).
Proof.
  induction d as [|[k' v'] d IH]; simpl; intros H; [constructor|].
  inversion H as [|? ? Hn Hd]; subst.
  destruct (eqb k k'); simpl; [assumption|].
  constructor; [|now apply IH].
  intros Hin. apply Hn. now apply keys_remove_incl in Hin.
Qed.

Lemma remove_absent_key (d : Dict.t (K := K) (V := V)) k :
  NoDup (map fst d) -> ~ In k (map fst (Dict.remove eqb d k)).
Proof.
  induction d as [|[k' v'] d IH]; simpl; intros H; [tauto|].
  inversion H as [|? ? Hn Hd]; subst.
  destruct (eqb k k') eqn:E; simpl.
  - apply eqb_eq in E; now subst.
  - intros [H1|H1].
    + subst. rewrite eqb_refl in E; discriminate.
    + now apply IH in H1.
Qed.

Lemma remove_not_key (d : Dict.t (K := K) (V := V)) k :
  ~ In k (map fst d) -> Dict.remove eqb d k = d.
Proof.
  induction d as [|[k' v'] d IH]; simpl; intros H; [reflexivity|].
  destruct (eqb k k') eqn:E.
  - apply eqb_eq in E; subst. exfalso; apply H; now left.
  - f_equal. apply IH. tauto.
Qed.

Lemma length_remove_key (d : Dict.t (K := K) (V := V)) k :
  In k (map fst d) ->
  S (List.length (Dict.remove eqb d k)) = List.length d.
Proof.
  induction d as [|[k' v'] d IH]; simpl; intros H; [tauto|].
  destruct (eqb k k') eqn:E; simpl; [reflexivity|].
  f_equal. apply IH. destruct H as [H|H]; [|assumption].
  subst. rewrite eqb_refl in E; discriminate.
Qed.

Lemma get_remove_other (d : Dict.t (K := K) (V := V)) k k' :
  k' <> k ->
  Dict.get eqb (Dict.remove eqb d k) k' = Dict.get eqb d k'.
Proof.
  intros Hne. induction d as [|[k0 v0] d IH]; simpl; [reflexivity|].
  destruct (eqb k k0) eqn:E; simpl.
  - apply eqb_eq in E; subst k0. now rewrite (eqb_neq _ _ Hne).
  - now rewrite IH.
Qed.
End DictFacts.

(** ** Real vectors, [clip] and the float remainder *)

Lemma clip_range lo hi x : lo <= hi -> lo <= clip lo hi x <= hi.
Proof.
  intros H. unfold clip, Rmin, Rmax.
  destruct (Rle_dec x lo); destruct (Rle_dec _ hi); lra.
Qed.

Lemma clip_id lo hi x : lo <= x <= hi -> clip lo hi x = x.
Proof.
  intros H. unfold clip, Rmin, Rmax.
  destruct (Rle_dec x lo); destruct (Rle_dec _ hi); lra.
Qed.

Lemma clip_below lo hi x : lo <= hi -> x <= lo -> clip lo hi x = lo.
Proof.
  intros H1 H2. unfold clip, Rmin, Rmax.
  destruct (Rle_dec x lo); destruct (Rle_dec _ hi); lra.
Qed.

Lemma clip_above lo hi x : lo <= hi -> hi <= x -> clip lo hi x = hi.
Proof.
  intros H1 H2. unfold clip, Rmin, Rmax.
  destruct (Rle_dec x lo); destruct (Rle_dec _ hi); lra.
Qed.

Lemma arange_S n : arange (S n) = arange n ++ [INR n].
Proof. unfold arange. now rewrite seq_S, map_app. Qed.

Lemma arange_length n : List.length (arange n) = n.
Proof. unfold arange. now rewrite length_map, length_seq. Qed.

Lemma last_elt_app (a : list R) x : last_elt (a ++ [x]) = Some x.
Proof.
  induction a as [|y a IH]; [reflexivity|].
  simpl. destruct (a ++ [x]) eqn:E; [now destruct a|exact IH].
Qed.

Lemma last_elt_map_arange (f : R -> R) n :
  last_elt (map f (arange (S n))) = Some (f (INR n)).
Proof.
  rewrite arange_S, map_app.
  change (map f [INR n]) with [f (INR n)]. apply last_elt_app.
Qed.

Lemma last_elt_nil_iff (a : list R) : last_elt a = None <-> a = [].
Proof.
  split; [|now intros ->].
  induction a as [|x a IH]; [reflexivity|].
  simpl. destruct a; [discriminate|]. intros H. now apply IH in H.
Qed.

Lemma nth_error_arange n j :
  (j < n)%nat -> nth_error (arange n) j = Some (INR j).
Proof.
  intros H. unfold arange.
  rewrite nth_error_map, nth_error_seq.
  destruct (Nat.ltb_spec j n); [reflexivity|lia].
Qed.

Lemma map2_length f u v :
  List.length (map2 f u v) = Nat.min (List.length u) (List.length v).
Proof.
  revert v. induction u as [|x u IH]; intros [|y v]; simpl; auto.
Qed.

Lemma map2_app f u1 u2 v1 v2 :
  List.length u1 = List.length v1 ->
  map2 f (u1 ++ u2) (v1 ++ v2) = map2 f u1 v1 ++ map2 f u2 v2.
Proof.
  revert v1. induction u1 as [|x u1 IH]; intros [|y v1]; simpl;
    try discriminate; [reflexivity|].
  intros [= H]. now rewrite IH.
Qed.

Lemma nth_error_map2 f u v j x y :
  nth_error u j = Some x -> nth_error v j = Some y ->
  nth_error (map2 f u v) j = Some (f x y).
Proof.
  revert v j. induction u as [|a u IH]; intros [|b v] [|j]; simpl;
    try discriminate.
  - now intros [= ->] [= ->].
  - apply IH.
Qed.

(** The remainder is determined by any decomposition of the dividend. *)
Lemma py_mod_unique x m (k : Z) r :
  0 < m -> 0 <= r < m -> x = IZR k * m + r -> py_mod x m = r.
Proof.
  intros Hm Hr Hx. unfold py_mod.
  assert (E : Int_part (x / m) = k).
  { symmetry. apply Int_part_spec.
    assert (Hq : x / m = IZR k + r / m) by (subst x; field; lra).
    assert (0 <= r / m < 1).
    { split.
      - apply Rmult_le_pos; [lra|]. left. now apply Rinv_0_lt_compat.
      - apply Rmult_lt_reg_r with m; [assumption|].
        unfold Rdiv. rewrite Rmult_assoc, Rinv_l; lra. }
    lra. }
  rewrite E. lra.
Qed.

Lemma py_mod_range x m : 0 < m -> 0 <= py_mod x m < m.
Proof.
  intros Hm. unfold py_mod.
  destruct (base_Int_part (x / m)) as [H1 H2].
  assert (Hx : x = x / m * m) by (field; lra).
  split.
  - assert (IZR (Int_part (x / m)) * m <= x / m * m)
      by (apply Rmult_le_compat_r; lra).
    lra.
  - assert (x / m * m - IZR (Int_part (x / m)) * m < 1 * m).
    { rewrite <- Rmult_minus_distr_r.
      apply Rmult_lt_compat_r; lra. }
    lra.
Qed.

Lemma py_mod_decomp x m :
  x = IZR (Int_part (x / m)) * m + py_mod x m.
Proof. unfold py_mod. lra. Qed.

(** Reducing the carried phase before adding the next advance changes
    nothing. *)
Lemma py_mod_add_l x y m :
  0 < m -> py_mod (py_mod x m + y) m = py_mod (x + y) m.
Proof.
  intros Hm.
  symmetry.
  apply py_mod_unique
    with (k := (Int_part (x / m) + Int_part ((py_mod x m + y) / m))%Z).
  - assumption.
  - now apply py_mod_range.
  - rewrite plus_IZR.
    pose proof (py_mod_decomp x m) as Dx.
    pose proof (py_mod_decomp (py_mod x m + y) m) as Dy.
    lra.
Qed.

Lemma sin_period_Z x (k : Z) : sin (x + IZR k * (2 * PI)) = sin x.
Proof.
  destruct (Z_le_gt_dec 0 k) as [Hk|Hk].
  - rewrite <- (Z2Nat.id k Hk), <- INR_IZR_INZ.
    replace (x + INR (Z.to_nat k) * (2 * PI))
      with (x + 2 * INR (Z.to_nat k) * PI) by ring.
    apply sin_period.
  - assert (Hk' : (0 <= - k)%Z) by lia.
    rewrite <- (sin_period (x + IZR k * (2 * PI)) (Z.to_nat (- k))).
    rewrite INR_IZR_INZ, Z2Nat.id by assumption.
    rewrite opp_IZR. f_equal. ring.
Qed.

(** The waveform does not see the reduction of the phase. *)
Lemma sin_py_mod x y : sin (py_mod x (2 * PI) + y) = sin (x + y).
Proof.
  rewrite <- (sin_period_Z (py_mod x (2 * PI) + y)
                 (Int_part (x / (2 * PI)))).
  f_equal. pose proof (py_mod_decomp x (2 * PI)). lra.
Qed.

(** ** The phase carried from one block to the next *)

Arguments arange : simpl never.
Arguments zeros : simpl never.

(** One oscillator of [wayDown.py]: the phase written back is the phase of
    the last frame of the block, [frames - 1] advances after the old one. *)
Lemma wayDown_osc_loop_one n freq phase mix :
  WayDown.osc_loop (arange (S n)) [freq] 0 [phase] mix =
  Ok [py_mod (phase + 2 * PI * freq / SAMPLE_RATE * INR n) (2 * PI)]
     (vadd mix
        (map (fun x => 0.22 * sin x)
           (map (fun x => phase + 2 * PI * freq / SAMPLE_RATE * x)
              (arange (S n))))).
Proof.
  cbn [WayDown.osc_loop nth_error].
  rewrite last_elt_map_arange. reflexivity.
Qed.

(** One oscillator of [afterlife.py]: the phase written back is the old
    phase advanced by the whole block. *)
Lemma afterlife_osc_loop_one frames nm freq ph phs mix :
  Dict.get String.eqb phs nm = Some [ph] ->
  Afterlife.osc_loop frames (arange frames) nm [freq] 0 phs mix =
  Ok (Dict.set String.eqb phs nm
        [py_mod (ph + 2 * PI * freq / SAMPLE_RATE * INR frames) (2 * PI)])
     (vadd mix
        (map (fun x => 0.22 * sin (ph + 2 * PI * freq / SAMPLE_RATE * x))
           (arange frames))).
Proof.
  intros H. cbn [Afterlife.osc_loop]. rewrite H.
  reflexivity.
Qed.

(** One note of [synth.py]: the phase written back is the old phase
    advanced by the whole block. *)
Lemma synth_render_note_phase n midi note wave note' remove :
  Synth.render_note (S n)
    (map (fun k => k / SAMPLE_RATE) (arange (S n))) midi note
  = Some (wave, note', remove) ->
  Synth.phase note' =
  py_mod (Synth.phase note
          + 2 * PI * Synth.midi_to_freq midi * INR (S n) / SAMPLE_RATE)
         (2 * PI).
Proof.
  unfold Synth.render_note.
  destruct (Synth.envelope _ _ _) as [[[[ev le] se] rm]|]; [|discriminate].
  rewrite map_map, last_elt_map_arange.
  intros [= _ <- _]. cbn [Synth.phase].
  f_equal. rewrite S_INR. unfold SAMPLE_RATE. field.
Qed.

(** C1 (fails in [wayDown.py]).  The reindeer's A4 (440 Hz) sounds with
    phase 0 and [audio_callback] renders one block of 512 frames.  The
    phase stored back is that of frame 511, [2 * PI * (4340 / 44100)], and
    not the old phase advanced by the 512 frames of the block, which is
    [2 * PI * (4780 / 44100)] modulo [2 * PI]: the next block repeats the
    last frame of this one. *)
Theorem wayDown_carried_phase_lags_one_frame :
  exists st' out,
    Dict.get String.eqb (WayDown.active_freqs wayDown_A4) "reindeer"
      = Some (Some [440.00]) /\
    Dict.get String.eqb (WayDown.phases wayDown_A4) "reindeer"
      = Some [0] /\
    WayDown.audio_callback 512 wayDown_A4 = Ok st' out /\
    Dict.get String.eqb (WayDown.phases st') "reindeer"
      = Some [2 * PI * (4340 / 44100)] /\
    py_mod (0 + 2 * PI * 440.00 * INR 512 / SAMPLE_RATE) (2 * PI)
      = 2 * PI * (4780 / 44100) /\
    2 * PI * (4340 / 44100) <> 2 * PI * (4780 / 44100).
Proof.
  pose proof PI_RGT_0 as HPI.
  assert (E511 :
    py_mod (0 + 2 * PI * 440.00 / SAMPLE_RATE * INR 511) (2 * PI)
    = 2 * PI * (4340 / 44100)).
  { apply py_mod_unique with (k := 5%Z); [lra|lra|].
    rewrite INR_IZR_INZ. unfold SAMPLE_RATE.
    change (Z.of_nat 511) with 511%Z. lra. }
  assert (E512 :
    py_mod (0 + 2 * PI * 440.00 * INR 512 / SAMPLE_RATE) (2 * PI)
    = 2 * PI * (4780 / 44100)).
  { apply py_mod_unique with (k := 5%Z); [lra|lra|].
    rewrite INR_IZR_INZ. unfold SAMPLE_RATE.
    change (Z.of_nat 512) with 512%Z. lra. }
  eexists. eexists.
  split; [reflexivity|]. split; [reflexivity|].
  split.
  - unfold WayDown.audio_callback, wayDown_A4.
    cbn [WayDown.on_press WayDown.start_note state_of Dict.get
         WayDown.KEYMAP Ascii.eqb Bool.eqb WayDown.init WayDown.insts
         WayDown.get_inst WayDown.reindeer WayDown.is_pressed
         WayDown.notes WayDown.NOTES_REINDEER List.length Nat.eqb orb
         nth_error WayDown.index NOTE_FREQUENCIES String.eqb
         WayDown.install WayDown.active_freqs WayDown.phases
         WayDown.name Dict.set map WayDown.inst_loop].
    rewrite (wayDown_osc_loop_one 511). rewrite E511.
    cbn [Dict.set String.eqb Ascii.eqb Bool.eqb].
    reflexivity.
  - split; [reflexivity|]. split; [exact E512|]. lra.
Qed.

(** ** The envelope of [synth.py] *)

Lemma py_int_IZR (z : Z) x : (0 <= z)%Z -> x = IZR z -> Synth.py_int x = z.
Proof.
  intros Hz ->. unfold Synth.py_int.
  destruct (Rle_dec 0 (IZR z)) as [_|H].
  - symmetry. apply Int_part_spec. lra.
  - exfalso. apply H. now apply IZR_le.
Qed.

Lemma total_samples_attack : Synth.total_samples Synth.ATTACK_TIME = 441%Z.
Proof.
  unfold Synth.total_samples.
  rewrite (py_int_IZR 441); [reflexivity|lia|].
  unfold Synth.ATTACK_TIME, SAMPLE_RATE. lra.
Qed.

Lemma total_samples_release :
  Synth.total_samples Synth.RELEASE_TIME = 2205%Z.
Proof.
  unfold Synth.total_samples.
  rewrite (py_int_IZR 2205); [reflexivity|lia|].
  unfold Synth.RELEASE_TIME, SAMPLE_RATE. lra.
Qed.

Lemma total_samples_pos seconds : (1 <= Synth.total_samples seconds)%Z.
Proof. unfold Synth.total_samples. lia. Qed.

Lemma last_elt_In (a : list R) x : last_elt a = Some x -> In x a.
Proof.
  induction a as [|y a IH]; [discriminate|].
  simpl. destruct a as [|z a].
  - intros [= ->]. now left.
  - intros H. right. now apply IH.
Qed.

Lemma Forall_repeat (P : R -> Prop) x n : P x -> Forall P (repeat x n).
Proof. intros H. induction n; simpl; constructor; assumption. Qed.

(** Whatever the duration, the target and the level it starts from, a
    ramp stays between 0 and 1. *)
Lemma ramp_unit frames seconds target lvl :
  Forall (fun e => 0 <= e <= 1) (Synth.ramp frames seconds target lvl).
Proof.
  unfold Synth.ramp. apply Forall_map, Forall_forall.
  intros x _. apply clip_range. lra.
Qed.

Lemma ramp_length frames seconds target lvl :
  List.length (Synth.ramp frames seconds target lvl) = frames.
Proof. unfold Synth.ramp. now rewrite !length_map, arange_length. Qed.

Lemma envelope_unit frames s lvl vec lvl' s' rm :
  0 <= lvl <= 1 ->
  Synth.envelope frames s lvl = Some (vec, lvl', s', rm) ->
  Forall (fun e => 0 <= e <= 1) vec /\ 0 <= lvl' <= 1 /\
  List.length vec = frames.
Proof.
  intros Hl. unfold Synth.envelope.
  destruct (String.eqb s "attack").
  { destruct (last_elt _) as [e|] eqn:El; [|discriminate].
    destruct (Rle_dec 0.999 e); intros [= <- <- <- <-].
    - split; [apply Forall_repeat; lra|].
      split; [lra|apply repeat_length].
    - split; [apply ramp_unit|].
      split; [|apply ramp_length].
      apply last_elt_In in El.
      pose proof (ramp_unit frames Synth.ATTACK_TIME 1 lvl) as F.
      rewrite Forall_forall in F. now apply F. }
  destruct (String.eqb s "sustain").
  { intros [= <- <- <- <-].
    split; [now apply Forall_repeat|]. split; [assumption|].
    apply repeat_length. }
  destruct (String.eqb s "release").
  { destruct (last_elt _) as [e|] eqn:El; [|discriminate].
    intros [= <- <- <- <-].
    split; [apply ramp_unit|]. split; [|apply ramp_length].
    apply last_elt_In in El.
    pose proof (ramp_unit frames Synth.RELEASE_TIME 0 lvl) as F.
    rewrite Forall_forall in F. now apply F. }
  intros [= <- <- <- <-].
  split; [apply Forall_repeat; lra|]. split; [lra|apply repeat_length].
Qed.

Section DictValues.
Context {K V : Type}.
Variable eqb : K -> K -> bool.
Variable Q : V -> Prop.

Lemma dict_get_val (d : Dict.t (K := K) (V := V)) k v :
  Forall (fun kv => Q (snd kv)) d -> Dict.get eqb d k = Some v -> Q v.
Proof.
  induction 1 as [|[k' v'] d H F IH]; simpl; [discriminate|].
  destruct (eqb k k'); [now intros [= <-]|exact IH].
Qed.

Lemma dict_set_val (d : Dict.t (K := K) (V := V)) k v :
  Forall (fun kv => Q (snd kv)) d -> Q v ->
  Forall (fun kv => Q (snd kv)) (Dict.set eqb d k v).
Proof.
  intros F Hv. induction F as [|[k' v'] d H F IH]; simpl.
  - now repeat constructor.
  - destruct (eqb k k'); constructor; assumption.
Qed.

Lemma dict_remove_val (d : Dict.t (K := K) (V := V)) k :
  Forall (fun kv => Q (snd kv)) d ->
  Forall (fun kv => Q (snd kv)) (Dict.remove eqb d k).
Proof.
  induction 1 as [|[k' v'] d H F IH]; simpl; [constructor|].
  destruct (eqb k k'); [assumption|now constructor].
Qed.
End DictValues.

Lemma render_note_level frames t midi note wave note' rm :
  0 <= Synth.env_level note <= 1 ->
  Synth.render_note frames t midi note = Some (wave, note', rm) ->
  0 <= Synth.env_level note' <= 1.
Proof.
  intros Hl. unfold Synth.render_note.
  destruct (Synth.envelope _ _ _) as [[[[ev le] se] r]|] eqn:E;
    [|discriminate].
  destruct (last_elt _); [|discriminate].
  intros [= _ <- _]. cbn [Synth.env_level].
  now destruct (envelope_unit _ _ _ _ _ _ _ Hl E) as (_ & H & _).
Qed.

Lemma note_loop_levels frames t items sig :
  Forall (fun kv => 0 <= Synth.env_level (snd kv) <= 1) items ->
  Forall (fun kv => 0 <= Synth.env_level (snd kv) <= 1)
         (state_of (Synth.note_loop frames t items sig)).
Proof.
  intros F. revert sig.
  induction F as [|[midi note] items H F IH]; intros sig;
    cbn [Synth.note_loop]; [constructor|].
  destruct (Synth.render_note _ _ _ _) as [[[wave note'] rm]|] eqn:E.
  - specialize (IH (vadd sig wave)).
    destruct (Synth.note_loop _ _ _ _) as [rest [sig' r]|rest e];
      cbn [state_of] in *; constructor; try assumption;
      cbn [snd] in *; eapply render_note_level; eauto.
  - cbn [state_of]. now constructor.
Qed.

Lemma remove_notes_levels an rm :
  Forall (fun kv => 0 <= Synth.env_level (snd kv) <= 1) an ->
  Forall (fun kv => 0 <= Synth.env_level (snd kv) <= 1)
         (Synth.remove_notes an rm).
Proof.
  unfold Synth.remove_notes. revert an.
  induction rm as [|m rm IH]; intros an F; simpl; [assumption|].
  apply IH.
  now apply (dict_remove_val Z.eqb
               (fun n => 0 <= Synth.env_level n <= 1)).
Qed.

Lemma audio_callback_levels frames st :
  Synth.levels_ok st ->
  Synth.levels_ok (state_of (Synth.audio_callback frames st)).
Proof.
  unfold Synth.levels_ok, Synth.audio_callback. intros F.
  destruct (Synth.active_notes st) as [|kv an] eqn:Ean.
  - cbn [state_of]. now rewrite Ean.
  - pose proof (note_loop_levels frames
                  (map (fun n => n / SAMPLE_RATE) (arange frames))
                  (kv :: an) (zeros frames) F) as L.
    destruct (Synth.note_loop _ _ _ _) as [an1 [sig rm]|an1 e];
      cbn [state_of Synth.set_active_notes Synth.active_notes] in *.
    + now apply remove_notes_levels.
    + assumption.
Qed.

Lemma add_note_levels key_char midi st :
  Synth.levels_ok st ->
  Synth.levels_ok (Synth.add_note_for_key key_char midi st).
Proof.
  unfold Synth.levels_ok, Synth.add_note_for_key. intros F.
  cbn [Synth.active_notes].
  destruct (Dict.get Z.eqb (Synth.active_notes st) midi) as [note|] eqn:E.
  - destruct (String.eqb _ _); [|assumption].
    apply (dict_set_val Z.eqb (fun n => 0 <= Synth.env_level n <= 1));
      [assumption|].
    cbn [Synth.set_env_state Synth.env_level].
    exact (dict_get_val Z.eqb
             (fun n => 0 <= Synth.env_level n <= 1) _ _ _ F E).
  - apply (dict_set_val Z.eqb (fun n => 0 <= Synth.env_level n <= 1));
      [assumption|].
    cbn [Synth.env_level]. lra.
Qed.

Lemma release_loop_levels midi_list an :
  Forall (fun kv => 0 <= Synth.env_level (snd kv) <= 1) an ->
  Forall (fun kv => 0 <= Synth.env_level (snd kv) <= 1)
         (Synth.release_loop midi_list an).
Proof.
  revert an. induction midi_list as [|m l IH]; intros an F;
    cbn [Synth.release_loop]; [assumption|].
  destruct (Dict.get Z.eqb an m) as [note|] eqn:E; apply IH;
    [|assumption].
  apply (dict_set_val Z.eqb (fun n => 0 <= Synth.env_level n <= 1));
    [assumption|].
  cbn [Synth.set_env_state Synth.env_level].
  exact (dict_get_val Z.eqb
           (fun n => 0 <= Synth.env_level n <= 1) _ _ _ F E).
Qed.

Lemma on_press_levels key st :
  Synth.levels_ok st -> Synth.levels_ok (state_of (Synth.on_press key st)).
Proof.
  intros F. unfold Synth.on_press.
  destruct key as [ch| |]; cbn [state_of]; try assumption.
  repeat match goal with
  | |- context [if ?b then _ else _] => destruct b; cbn [state_of]
  | |- context [match ?x with _ => _ end] =>
      destruct x; cbn [state_of]
  end; try assumption.
  now apply add_note_levels.
Qed.

Lemma on_release_levels key st :
  Synth.levels_ok st -> Synth.levels_ok (Synth.on_release key st).
Proof.
  intros F. unfold Synth.on_release.
  destruct key as [ch| |]; try assumption.
  destruct (Dict.mem _ _ _); [|assumption].
  unfold Synth.levels_ok, Synth.release_notes_for_key.
  cbn [Synth.active_notes]. now apply release_loop_levels.
Qed.

Lemma step_levels st st' :
  Synth.Step st st' -> Synth.levels_ok st -> Synth.levels_ok st'.
Proof.
  intros [key s|key s|frames s] F.
  - now apply on_press_levels.
  - now apply on_release_levels.
  - now apply audio_callback_levels.
Qed.

Lemma run_levels st st' :
  Synth.Run st st' -> Synth.levels_ok st -> Synth.levels_ok st'.
Proof.
  induction 1 as [|st1 st2 st3 R IH S]; intros F; [assumption|].
  eapply step_levels; eauto.
Qed.

(** ** The key handlers of [synth.py] *)

(** A playable key is neither a bank key nor an octave key, and its degree
    index is below 7. *)
Lemma playable_key c d :
  Dict.get Ascii.eqb Synth.PLAYABLE_KEY_TO_DEGREE c = Some d ->
  existsb (Ascii.eqb c) Synth.BANK_KEYS = false /\
  Ascii.eqb c Synth.OCTAVE_DOWN_KEY = false /\
  Ascii.eqb c Synth.OCTAVE_UP_KEY = false /\
  (d < 7)%nat.
Proof.
  unfold Synth.PLAYABLE_KEY_TO_DEGREE. cbn [Dict.get].
  repeat match goal with
  | |- context [Ascii.eqb c ?k] =>
      destruct (Ascii.eqb_spec c k) as [->|_];
      [intros [= <-]; cbn; repeat split; lia|]
  end.
  discriminate.
Qed.

(** The scale that [bank_scales.get(bank, [])] returns. *)
Lemma on_press_playable st ch d bank :
  Synth.holding st (Synth.lower ch) = false ->
  Dict.get Ascii.eqb Synth.PLAYABLE_KEY_TO_DEGREE (Synth.lower ch)
    = Some d ->
  Synth.current_bank st = Some bank ->
  Synth.on_press (KeyChar ch) st =
  let scale :=
    match Dict.get Ascii.eqb (Synth.bank_scales st) bank with
    | Some s => s
    | None => []
    end in
  if negb (List.length scale =? 7)%nat
  then Ok st [Synth.BankNotPopulated bank]
  else
    match nth_error scale d with
    | None => Raise st IndexError
    | Some base_midi =>
        Ok (Synth.add_note_for_key (Synth.lower ch)
              (base_midi + Synth.current_octave_offset st * 12)%Z st) []
    end.
Proof.
  intros Hh Hp Hb. unfold Synth.on_press.
  destruct (playable_key _ _ Hp) as (H1 & H2 & H3 & _).
  now rewrite Hh, H1, H2, H3, Hp, Hb.
Qed.

Lemma add_note_registers key_char midi st :
  Synth.holding st key_char = false ->
  Dict.get Ascii.eqb
    (Synth.key_to_midis (Synth.add_note_for_key key_char midi st)) key_char
  = Some [midi].
Proof.
  unfold Synth.holding, Synth.add_note_for_key. intros Hh.
  cbn [Synth.key_to_midis].
  rewrite (get_set_same Ascii.eqb Ascii.eqb_eq).
  destruct (Dict.get Ascii.eqb (Synth.key_to_midis st) key_char)
    as [[|m l]|]; try discriminate; reflexivity.
Qed.

Lemma add_note_active key_char midi st :
  exists note,
    Dict.get Z.eqb
      (Synth.active_notes (Synth.add_note_for_key key_char midi st)) midi
    = Some note.
Proof.
  unfold Synth.add_note_for_key. cbn [Synth.active_notes].
  destruct (Dict.get Z.eqb (Synth.active_notes st) midi) as [note|] eqn:E.
  - destruct (String.eqb _ _).
    + eexists. apply (get_set_same Z.eqb Z.eqb_eq).
    + now exists note.
  - eexists. apply (get_set_same Z.eqb Z.eqb_eq).
Qed.

(** C5.  A playable key-down that resolves to the pitch [midi]: when the
    voice of [midi] exists in its release, the handler puts it back into
    the attack with its phase and its envelope level as they are; whenever
    a voice of [midi] exists its level is kept; a voice with level 0 is
    created only when there is none. *)
Theorem reattack_keeps_level st ch d bank scale base :
  Synth.holding st (Synth.lower ch) = false ->
  Dict.get Ascii.eqb Synth.PLAYABLE_KEY_TO_DEGREE (Synth.lower ch)
    = Some d ->
  Synth.current_bank st = Some bank ->
  Dict.get Ascii.eqb (Synth.bank_scales st) bank = Some scale ->
  List.length scale = 7%nat ->
  nth_error scale d = Some base ->
  let midi := (base + Synth.current_octave_offset st * 12)%Z in
  let st' := state_of (Synth.on_press (KeyChar ch) st) in
  (forall note,
     Dict.get Z.eqb (Synth.active_notes st) midi = Some note ->
     (Synth.env_state note = "release" ->
      Dict.get Z.eqb (Synth.active_notes st') midi
      = Some (Synth.mkNote (Synth.phase note) (Synth.env_level note)
                "attack")) /\
     exists note',
       Dict.get Z.eqb (Synth.active_notes st') midi = Some note' /\
       Synth.env_level note' = Synth.env_level note) /\
  (Dict.get Z.eqb (Synth.active_notes st) midi = None ->
   Dict.get Z.eqb (Synth.active_notes st') midi
   = Some (Synth.mkNote 0 0 "attack")).
Proof.
  intros Hh Hp Hb Hs Hl Hn midi st'.
  assert (E : st' = Synth.add_note_for_key (Synth.lower ch) midi st).
  { unfold st'. rewrite (on_press_playable st ch d bank Hh Hp Hb).
    cbn zeta. rewrite Hs, Hl, Hn. reflexivity. }
  rewrite E. unfold Synth.add_note_for_key. cbn [Synth.active_notes].
  split.
  - intros note Hg. rewrite Hg. split.
    + intros Hr. rewrite Hr. cbn [String.eqb Ascii.eqb Bool.eqb].
      apply (get_set_same Z.eqb Z.eqb_eq).
    + destruct (String.eqb _ _).
      * eexists. split; [apply (get_set_same Z.eqb Z.eqb_eq)|reflexivity].
      * now exists note.
  - intros Hg. rewrite Hg. apply (get_set_same Z.eqb Z.eqb_eq).
Qed.

Lemma reattack_keeps_level_witness :
  Dict.get Z.eqb
    (Synth.active_notes
       (state_of (Synth.on_press (KeyChar "j") synth_releasing))) 58%Z
  = Some (Synth.mkNote 1 0.5 "attack").
Proof.
  apply (reattack_keeps_level synth_releasing "j" 0 "a"
           [58; 60; 62; 63; 65; 67; 69]%Z 58%Z
           eq_refl eq_refl eq_refl eq_refl eq_refl eq_refl)
    with (note := Synth.mkNote 1 0.5 "release");
    reflexivity.
Defined.

(** C10.  [add_note_for_key] on a pitch whose voice exists leaves the
    phase and the envelope level of that voice as they are: at most its
    envelope state changes, from release to attack.  Every other voice
    and the order of the voices are untouched.  The phase 0 is given to a
    voice only when it is created. *)
Theorem reattack_touches_only_env_state key_char midi st :
  let st' := Synth.add_note_for_key key_char midi st in
  (forall note,
     Dict.get Z.eqb (Synth.active_notes st) midi = Some note ->
     Dict.get Z.eqb (Synth.active_notes st') midi
     = Some (Synth.mkNote (Synth.phase note) (Synth.env_level note)
               (if String.eqb (Synth.env_state note) "release"
                then "attack" else Synth.env_state note)) /\
     map fst (Synth.active_notes st') = map fst (Synth.active_notes st)) /\
  (Dict.get Z.eqb (Synth.active_notes st) midi = None ->
   Dict.get Z.eqb (Synth.active_notes st') midi
   = Some (Synth.mkNote 0 0 "attack")) /\
  (forall m, m <> midi ->
     Dict.get Z.eqb (Synth.active_notes st') m
     = Dict.get Z.eqb (Synth.active_notes st) m).
Proof.
  intros st'. unfold st', Synth.add_note_for_key.
  cbn [Synth.active_notes].
  split; [|split].
  - intros note Hg. rewrite Hg.
    destruct (String.eqb (Synth.env_state note) "release") eqn:Er.
    + split; [apply (get_set_same Z.eqb Z.eqb_eq)|].
      eapply (keys_set_present Z.eqb); eassumption.
    + split; [|reflexivity]. rewrite Hg. now destruct note.
  - intros Hg. rewrite Hg. apply (get_set_same Z.eqb Z.eqb_eq).
  - intros m Hm.
    destruct (Dict.get Z.eqb (Synth.active_notes st) midi) as [note|].
    + destruct (String.eqb _ _); [|reflexivity].
      now apply (get_set_other Z.eqb Z.eqb_eq).
    + now apply (get_set_other Z.eqb Z.eqb_eq).
Qed.

Lemma reattack_touches_only_env_state_witness :
  Dict.get Z.eqb
    (Synth.active_notes
       (Synth.add_note_for_key "j" 58%Z synth_releasing)) 58%Z
  = Some (Synth.mkNote 1 0.5 "attack").
Proof.
  apply (proj1 (reattack_touches_only_env_state "j" 58%Z synth_releasing)
           (Synth.mkNote 1 0.5 "release") eq_refl).
Defined.

(** C7.  A playable key-down, with a bank selected whose scale has 7
    entries, resolves the pitch [scale[degree] + 12 * octave offset],
    whatever the offset, registers it as the only pitch of the pressing
    key and makes a voice of it exist.  With the bank
    [[58; 60; 62; 63; 65; 67; 69]] the key of degree index 0 gives 46 one
    octave down and 82 two octaves up. *)
Theorem degree_resolution :
  (forall st ch d bank scale,
     Synth.holding st (Synth.lower ch) = false ->
     Dict.get Ascii.eqb Synth.PLAYABLE_KEY_TO_DEGREE (Synth.lower ch)
       = Some d ->
     Synth.current_bank st = Some bank ->
     Dict.get Ascii.eqb (Synth.bank_scales st) bank = Some scale ->
     List.length scale = 7%nat ->
     exists base st',
       nth_error scale d = Some base /\
       Synth.on_press (KeyChar ch) st = Ok st' [] /\
       st' = Synth.add_note_for_key (Synth.lower ch)
               (base + 12 * Synth.current_octave_offset st)%Z st /\
       Dict.get Ascii.eqb (Synth.key_to_midis st') (Synth.lower ch)
         = Some [(base + 12 * Synth.current_octave_offset st)%Z] /\
       Dict.mem Z.eqb (Synth.active_notes st')
         (base + 12 * Synth.current_octave_offset st)%Z = true) /\
  Dict.get Ascii.eqb (Synth.bank_scales synth_bank_a_down) "a"%char
    = Some [58; 60; 62; 63; 65; 67; 69]%Z /\
  Synth.current_octave_offset synth_bank_a_down = (-1)%Z /\
  Dict.get Ascii.eqb
    (Synth.key_to_midis
       (state_of (Synth.on_press (KeyChar "j") synth_bank_a_down))) "j"%char
    = Some [46%Z] /\
  Synth.current_octave_offset synth_bank_a_up2 = 2%Z /\
  Dict.get Ascii.eqb
    (Synth.key_to_midis
       (state_of (Synth.on_press (KeyChar "j") synth_bank_a_up2))) "j"%char
    = Some [82%Z].
Proof.
  split; [|repeat split; reflexivity].
  intros st ch d bank scale Hh Hp Hb Hs Hl.
  destruct (playable_key _ _ Hp) as (_ & _ & _ & Hd).
  destruct (nth_error scale d) as [base|] eqn:Hn.
  2:{ apply nth_error_None in Hn. lia. }
  exists base. eexists. split; [reflexivity|].
  rewrite (on_press_playable st ch d bank Hh Hp Hb).
  cbn zeta. rewrite Hs, Hl, Hn. cbn [Nat.eqb negb].
  replace (base + Synth.current_octave_offset st * 12)%Z
    with (base + 12 * Synth.current_octave_offset st)%Z by ring.
  split; [reflexivity|]. split; [reflexivity|].
  split; [now apply add_note_registers|].
  unfold Dict.mem.
  now destruct (add_note_active (Synth.lower ch)
                  (base + 12 * Synth.current_octave_offset st)%Z st)
    as [note ->].
Qed.

Lemma degree_resolution_witness :
  exists base st',
    nth_error [58; 60; 62; 63; 65; 67; 69]%Z 4 = Some base /\
    Synth.on_press (KeyChar "L") synth_bank_a_up2 = Ok st' [] /\
    st' = Synth.add_note_for_key "l"%char (base + 12 * 2)%Z synth_bank_a_up2 /\
    Dict.get Ascii.eqb (Synth.key_to_midis st') "l"%char
      = Some [(base + 12 * 2)%Z] /\
    Dict.mem Z.eqb (Synth.active_notes st') (base + 12 * 2)%Z = true.
Proof.
  exact (proj1 degree_resolution synth_bank_a_up2 "L"%char 4%nat "a"%char
           [58; 60; 62; 63; 65; 67; 69]%Z
           eq_refl eq_refl eq_refl eq_refl eq_refl).
Defined.

(** C8.  A playable key-down while no bank is selected, or while the
    scale of the selected bank has not exactly 7 entries, returns without
    an exception and leaves the whole state as it is: no voice, no entry
    of the key-to-pitches map.  Unless the key is one that already holds
    a pitch, the handler prints which of the two it was. *)
Theorem incomplete_bank_rejected st ch d :
  Dict.get Ascii.eqb Synth.PLAYABLE_KEY_TO_DEGREE (Synth.lower ch)
    = Some d ->
  (Synth.current_bank st = None \/
   exists bank,
     Synth.current_bank st = Some bank /\
     List.length
       (match Dict.get Ascii.eqb (Synth.bank_scales st) bank with
        | Some s => s
        | None => []
        end) <> 7%nat) ->
  (exists msgs, Synth.on_press (KeyChar ch) st = Ok st msgs) /\
  (Synth.holding st (Synth.lower ch) = false ->
   (Synth.current_bank st = None /\
    Synth.on_press (KeyChar ch) st = Ok st [Synth.NoBankSelected]) \/
   (exists bank,
      Synth.current_bank st = Some bank /\
      Synth.on_press (KeyChar ch) st
      = Ok st [Synth.BankNotPopulated bank])).
Proof.
  intros Hp Hbank.
  destruct (playable_key _ _ Hp) as (H1 & H2 & H3 & _).
  assert (Hn :
    Synth.holding st (Synth.lower ch) = false ->
    (Synth.current_bank st = None /\
     Synth.on_press (KeyChar ch) st = Ok st [Synth.NoBankSelected]) \/
    (exists bank,
       Synth.current_bank st = Some bank /\
       Synth.on_press (KeyChar ch) st
       = Ok st [Synth.BankNotPopulated bank])).
  { intros Hh. destruct Hbank as [Hb|(bank & Hb & Hl)].
    - left. split; [assumption|].
      unfold Synth.on_press. now rewrite Hh, H1, H2, H3, Hp, Hb.
    - right. exists bank. split; [assumption|].
      rewrite (on_press_playable st ch d bank Hh Hp Hb). cbn zeta.
      apply Nat.eqb_neq in Hl. now rewrite Hl. }
  split; [|exact Hn].
  destruct (Synth.holding st (Synth.lower ch)) eqn:Hh.
  - exists []. unfold Synth.on_press. now rewrite Hh.
  - destruct (Hn eq_refl) as [[_ E]|(bank & _ & E)]; eauto.
Qed.

Lemma incomplete_bank_rejected_witness :
  (exists msgs,
     Synth.on_press (KeyChar "k") synth_short_bank
     = Ok synth_short_bank msgs) /\
  (Synth.holding synth_short_bank (Synth.lower "k"%char) = false ->
   (Synth.current_bank synth_short_bank = None /\
    Synth.on_press (KeyChar "k") synth_short_bank
    = Ok synth_short_bank [Synth.NoBankSelected]) \/
   (exists bank,
      Synth.current_bank synth_short_bank = Some bank /\
      Synth.on_press (KeyChar "k") synth_short_bank
      = Ok synth_short_bank [Synth.BankNotPopulated bank])).
Proof.
  apply (incomplete_bank_rejected synth_short_bank "k" 2%nat eq_refl).
  right. exists "a"%char. split; [reflexivity|]. cbn. lia.
Defined.

(** C4.  From a state whose envelope levels lie in [[0, 1]] (the initial
    state has no voice at all), no sequence of key-downs, key-ups and
    rendered blocks of any size leads to a stored level outside
    [[0, 1]]; the envelope vector that the callback computes for a voice
    of such a state, and the level it stores back, lie in [[0, 1]] too;
    and a ramp lies in [[0, 1]] for every duration, target and start. *)
Theorem envelope_level_in_unit_interval st0 st :
  Synth.levels_ok st0 ->
  Synth.Run st0 st ->
  (forall midi note,
     In (midi, note) (Synth.active_notes st) ->
     0 <= Synth.env_level note <= 1) /\
  (forall frames midi note vec lvl' s' rm,
     In (midi, note) (Synth.active_notes st) ->
     Synth.envelope frames (Synth.env_state note) (Synth.env_level note)
     = Some (vec, lvl', s', rm) ->
     Forall (fun e => 0 <= e <= 1) vec /\ 0 <= lvl' <= 1) /\
  (forall frames seconds target lvl,
     Forall (fun e => 0 <= e <= 1)
            (Synth.ramp frames seconds target lvl)).
Proof.
  intros H0 HR.
  pose proof (run_levels _ _ HR H0) as F.
  unfold Synth.levels_ok in F. rewrite Forall_forall in F.
  split; [|split].
  - intros midi note Hin. exact (F _ Hin).
  - intros frames midi note vec lvl' s' rm Hin E.
    destruct (envelope_unit _ _ _ _ _ _ _ (F _ Hin) E) as (A & B & _).
    now split.
  - intros. apply ramp_unit.
Qed.

Lemma envelope_level_in_unit_interval_witness :
  Synth.levels_ok Synth.init /\
  Synth.Run Synth.init synth_first_block /\
  forall midi note,
    In (midi, note) (Synth.active_notes synth_first_block) ->
    0 <= Synth.env_level note <= 1.
Proof.
  assert (H0 : Synth.levels_ok Synth.init) by constructor.
  assert (HR : Synth.Run Synth.init synth_first_block).
  { unfold synth_first_block.
    eapply Synth.run_step; [|apply Synth.step_render].
    eapply Synth.run_step; [|apply Synth.step_press].
    eapply Synth.run_step; [|apply Synth.step_press].
    apply Synth.run_nil. }
  split; [exact H0|]. split; [exact HR|].
  exact (proj1 (envelope_level_in_unit_interval _ _ H0 HR)).
Defined.

(** ** A key that goes down twice *)

Lemma wayDown_get_set_inst ins o i :
  WayDown.get_inst (WayDown.set_inst ins o i) o = i.
Proof. now destruct o. Qed.

Lemma wayDown_start_note_twice o st :
  WayDown.start_note o (state_of (WayDown.start_note o st))
  = Ok (state_of (WayDown.start_note o st)) tt.
Proof.
  unfold WayDown.start_note at 2 3.
  destruct (WayDown.is_pressed (WayDown.get_inst (WayDown.insts st) o)
            || (List.length
                  (WayDown.notes (WayDown.get_inst (WayDown.insts st) o))
                =? 0)%nat) eqn:E.
  - cbn [state_of]. unfold WayDown.start_note. now rewrite E.
  - assert (P : forall s e,
      WayDown.insts s
      = WayDown.set_inst (WayDown.insts st) o
          (WayDown.set_pressed
             (WayDown.get_inst (WayDown.insts st) o) true) ->
      e = s -> WayDown.start_note o e = Ok s tt).
    { intros s e Hs ->. unfold WayDown.start_note.
      now rewrite Hs, wayDown_get_set_inst. }
    destruct (nth_error _ _) as [[n|ns|]|]; cbn [state_of];
      try (apply P; reflexivity).
    + destruct (Dict.get _ _ _); cbn [state_of]; apply P; reflexivity.
    + destruct (lookup_freqs ns); cbn [state_of]; apply P; reflexivity.
Qed.

Lemma wayDown_on_press_twice key st :
  state_of (WayDown.on_press key (state_of (WayDown.on_press key st)))
  = state_of (WayDown.on_press key st).
Proof.
  destruct key as [ch| |]; cbn [WayDown.on_press state_of];
    try reflexivity.
  destruct (Dict.get Ascii.eqb WayDown.KEYMAP ch) as [o|];
    cbn [state_of]; [|reflexivity].
  now rewrite wayDown_start_note_twice.
Qed.

Lemma afterlife_get_set_inst ins o i :
  Afterlife.get_inst (Afterlife.set_inst ins o i) o = i.
Proof. now destruct o. Qed.

Lemma held_add_key h ch : Afterlife.held (Afterlife.add_key h ch) ch = true.
Proof.
  unfold Afterlife.add_key.
  destruct (Afterlife.held h ch) eqn:E; [assumption|].
  unfold Afterlife.held. rewrite existsb_app. cbn.
  now rewrite Ascii.eqb_refl, orb_true_r.
Qed.

Lemma afterlife_start_note_held o st :
  Afterlife.held_keys
    (Afterlife.get_inst
       (Afterlife.insts (state_of (Afterlife.start_note o st))) o)
  = Afterlife.held_keys (Afterlife.get_inst (Afterlife.insts st) o).
Proof.
  unfold Afterlife.start_note.
  destruct (nth_error _ _) as [[n|ns|]|]; cbn [state_of];
    try reflexivity.
  - destruct (Dict.get _ _ _); cbn [state_of Afterlife.insts];
      [|reflexivity].
    now rewrite afterlife_get_set_inst.
  - destruct (lookup_freqs ns); cbn [state_of Afterlife.insts];
      [|reflexivity].
    now rewrite afterlife_get_set_inst.
Qed.

Lemma afterlife_on_press_twice key st :
  state_of (Afterlife.on_press key (state_of (Afterlife.on_press key st)))
  = state_of (Afterlife.on_press key st).
Proof.
  destruct key as [ch| |]; cbn [Afterlife.on_press state_of];
    try reflexivity.
  destruct (Dict.get Ascii.eqb Afterlife.KEYMAP ch) as [o|];
    cbn [state_of]; [|reflexivity].
  destruct (Afterlife.held
              (Afterlife.held_keys
                 (Afterlife.get_inst (Afterlife.insts st) o)) ch) eqn:E.
  - cbn [state_of]. now rewrite E.
  - rewrite afterlife_start_note_held. cbn [Afterlife.insts].
    rewrite afterlife_get_set_inst. cbn [Afterlife.set_held
      Afterlife.held_keys].
    now rewrite held_add_key.
Qed.

Lemma synth_holding_after_add key_char midi st :
  Synth.holding st key_char = false ->
  Synth.holding (Synth.add_note_for_key key_char midi st) key_char = true.
Proof.
  intros H. unfold Synth.holding at 1.
  now rewrite add_note_registers.
Qed.

(** The second of two key-downs of one key in [synth.py]: nothing but the
    octave offset can change, and that only by an octave key. *)
Lemma synth_on_press_twice key st :
  let st1 := state_of (Synth.on_press key st) in
  let st2 := state_of (Synth.on_press key st1) in
  Synth.active_notes st2 = Synth.active_notes st1 /\
  Synth.key_to_midis st2 = Synth.key_to_midis st1 /\
  Synth.current_bank st2 = Synth.current_bank st1 /\
  Synth.bank_scales st2 = Synth.bank_scales st1 /\
  ((forall ch, key = KeyChar ch ->
      Synth.lower ch <> Synth.OCTAVE_DOWN_KEY /\
      Synth.lower ch <> Synth.OCTAVE_UP_KEY) ->
   st2 = st1).
Proof.
  destruct key as [ch| |]; cbn zeta;
    try (cbn [Synth.on_press state_of]; repeat split; reflexivity).
  set (char := Synth.lower ch).
  assert (Same : forall s, state_of (Synth.on_press (KeyChar ch) s) = s ->
    state_of (Synth.on_press (KeyChar ch) st) = s ->
    let st1 := state_of (Synth.on_press (KeyChar ch) st) in
    let st2 := state_of (Synth.on_press (KeyChar ch) st1) in
    Synth.active_notes st2 = Synth.active_notes st1 /\
    Synth.key_to_midis st2 = Synth.key_to_midis st1 /\
    Synth.current_bank st2 = Synth.current_bank st1 /\
    Synth.bank_scales st2 = Synth.bank_scales st1 /\
    ((forall c, KeyChar ch = KeyChar c ->
        Synth.lower c <> Synth.OCTAVE_DOWN_KEY /\
        Synth.lower c <> Synth.OCTAVE_UP_KEY) ->
     st2 = st1)).
  { intros s H1 H2. cbn zeta. rewrite H2, H1. repeat split. }
  destruct (Synth.holding st char) eqn:Hh.
  { apply (Same st); unfold Synth.on_press; fold char; now rewrite Hh. }
  destruct (existsb (Ascii.eqb char) Synth.BANK_KEYS) eqn:Hb.
  { assert (E1 : state_of (Synth.on_press (KeyChar ch) st)
      = Synth.mkState (Synth.bank_scales st) (Some char)
          (Synth.current_octave_offset st) (Synth.active_notes st)
          (Synth.key_to_midis st)).
    { unfold Synth.on_press; fold char. now rewrite Hh, Hb. }
    refine (Same _ _ E1).
    unfold Synth.on_press; fold char.
    unfold Synth.holding in *. cbn [Synth.key_to_midis].
    destruct (Dict.get Ascii.eqb (Synth.key_to_midis st) char)
      as [[|m l]|]; try discriminate; now rewrite Hb. }
  destruct (Ascii.eqb char Synth.OCTAVE_DOWN_KEY) eqn:Hd.
  { assert (E1 : forall s, Synth.holding s char = false ->
      state_of (Synth.on_press (KeyChar ch) s)
      = if (Synth.MIN_OCTAVE_OFFSET <? Synth.current_octave_offset s)%Z
        then Synth.mkState (Synth.bank_scales s) (Synth.current_bank s)
               (Synth.current_octave_offset s - 1)
               (Synth.active_notes s) (Synth.key_to_midis s)
        else s).
    { intros s Hs. unfold Synth.on_press; fold char.
      rewrite Hs, Hb, Hd. now destruct (_ <? _)%Z. }
    assert (Hh1 : Synth.holding (state_of (Synth.on_press (KeyChar ch) st))
                    char = false).
    { rewrite (E1 st Hh). now destruct (_ <? _)%Z. }
    rewrite (E1 _ Hh1), (E1 st Hh).
    repeat split;
      try (repeat (destruct (_ <? _)%Z; cbn); reflexivity).
    intros Hk. destruct (Hk ch eq_refl) as [Hk1 _].
    apply Ascii.eqb_eq in Hd. contradiction. }
  destruct (Ascii.eqb char Synth.OCTAVE_UP_KEY) eqn:Hu.
  { assert (E1 : forall s, Synth.holding s char = false ->
      state_of (Synth.on_press (KeyChar ch) s)
      = if (Synth.current_octave_offset s <? Synth.MAX_OCTAVE_OFFSET)%Z
        then Synth.mkState (Synth.bank_scales s) (Synth.current_bank s)
               (Synth.current_octave_offset s + 1)
               (Synth.active_notes s) (Synth.key_to_midis s)
        else s).
    { intros s Hs. unfold Synth.on_press; fold char.
      rewrite Hs, Hb, Hd, Hu. now destruct (_ <? _)%Z. }
    assert (Hh1 : Synth.holding (state_of (Synth.on_press (KeyChar ch) st))
                    char = false).
    { rewrite (E1 st Hh). now destruct (_ <? _)%Z. }
    rewrite (E1 _ Hh1), (E1 st Hh).
    repeat split;
      try (repeat (destruct (_ <? _)%Z; cbn); reflexivity).
    intros Hk. destruct (Hk ch eq_refl) as [_ Hk2].
    apply Ascii.eqb_eq in Hu. contradiction. }
  assert (E : forall s, Synth.holding s char = false ->
    Synth.on_press (KeyChar ch) s
    = match Dict.get Ascii.eqb Synth.PLAYABLE_KEY_TO_DEGREE char with
      | None => Ok s []
      | Some degree_index =>
          match Synth.current_bank s with
          | None => Ok s [Synth.NoBankSelected]
          | Some bank =>
              let scale :=
                match Dict.get Ascii.eqb (Synth.bank_scales s) bank with
                | Some sc => sc
                | None => []
                end in
              if negb (List.length scale =? 7)%nat
              then Ok s [Synth.BankNotPopulated bank]
              else
                match nth_error scale degree_index with
                | None => Raise s IndexError
                | Some base_midi =>
                    Ok (Synth.add_note_for_key char
                          (base_midi
                           + Synth.current_octave_offset s * 12)%Z s) []
                end
          end
      end).
  { intros s Hs. unfold Synth.on_press; fold char.
    now rewrite Hs, Hb, Hd, Hu. }
  destruct (Dict.get Ascii.eqb Synth.PLAYABLE_KEY_TO_DEGREE char)
    as [d|] eqn:Hp.
  2:{ apply (Same st); now rewrite (E st Hh). }
  destruct (Synth.current_bank st) as [bank|] eqn:Hc.
  2:{ apply (Same st); now rewrite (E st Hh), Hc. }
  destruct (negb (List.length
     match Dict.get Ascii.eqb (Synth.bank_scales st) bank with
     | Some sc => sc
     | None => []
     end =? 7)%nat) eqn:Hl.
  { apply (Same st); rewrite (E st Hh), Hc; cbn zeta; now rewrite Hl. }
  destruct (nth_error
     match Dict.get Ascii.eqb (Synth.bank_scales st) bank with
     | Some sc => sc
     | None => []
     end d) as [base|] eqn:Hn.
  2:{ apply (Same st); rewrite (E st Hh), Hc; cbn zeta;
      now rewrite Hl, Hn. }
  apply (Same (Synth.add_note_for_key char
                 (base + Synth.current_octave_offset st * 12)%Z st)).
  - unfold Synth.on_press; fold char.
    now rewrite synth_holding_after_add.
  - rewrite (E st Hh), Hc; cbn zeta. now rewrite Hl, Hn.
Qed.

(** C9 (as stated, fails for the octave keys of [synth.py]).  From the
    initial state the first key-down of the octave-down key moves the
    offset to -1 and the second one, with no key-up between them, moves
    it to -2. *)
Lemma second_octave_key_down_shifts_again :
  let st1 := state_of (Synth.on_press (KeyChar "v") Synth.init) in
  let st2 := state_of (Synth.on_press (KeyChar "v") st1) in
  Synth.current_octave_offset st1 = (-1)%Z /\
  Synth.current_octave_offset st2 = (-2)%Z /\
  st2 <> st1.
Proof.
  cbn zeta. split; [reflexivity|]. split; [reflexivity|].
  intros H. apply (f_equal Synth.current_octave_offset) in H.
  discriminate H.
Qed.

(** C9 (as amended).  The second of two key-downs of one key with no
    key-up of it between them leaves the whole state of [wayDown.py] and
    of [afterlife.py] as the first one left it, so it starts no voice.  In
    [synth.py] it leaves the voices, the pitches held by the keys, the
    selected bank and the scales as they are, and the whole state unless
    the key is one of the two octave keys. *)
Theorem second_key_down_ignored :
  (forall key st,
     state_of (WayDown.on_press key (state_of (WayDown.on_press key st)))
     = state_of (WayDown.on_press key st)) /\
  (forall key st,
     state_of
       (Afterlife.on_press key (state_of (Afterlife.on_press key st)))
     = state_of (Afterlife.on_press key st)) /\
  (forall key st,
     let st1 := state_of (Synth.on_press key st) in
     let st2 := state_of (Synth.on_press key st1) in
     Synth.active_notes st2 = Synth.active_notes st1 /\
     Synth.key_to_midis st2 = Synth.key_to_midis st1 /\
     Synth.current_bank st2 = Synth.current_bank st1 /\
     Synth.bank_scales st2 = Synth.bank_scales st1 /\
     ((forall ch, key = KeyChar ch ->
         Synth.lower ch <> Synth.OCTAVE_DOWN_KEY /\
         Synth.lower ch <> Synth.OCTAVE_UP_KEY) ->
      st2 = st1)).
Proof.
  split; [exact wayDown_on_press_twice|].
  split; [exact afterlife_on_press_twice|].
  exact synth_on_press_twice.
Qed.

Lemma second_key_down_ignored_witness :
  let st1 := state_of (Synth.on_press (KeyChar "j") synth_releasing) in
  let st2 := state_of (Synth.on_press (KeyChar "j") st1) in
  st2 = st1.
Proof.
  intros st1 st2.
  apply (proj2 (proj2 second_key_down_ignored) (KeyChar "j")
           synth_releasing).
  intros ch [= <-]. split; discriminate.
Defined.

(** ** The cursor of the arrangement variants *)

Lemma afterlife_start_note_index o st st' :
  Afterlife.start_note o st = Ok st' tt ->
  Afterlife.index (Afterlife.get_inst (Afterlife.insts st') o)
  = ((Afterlife.index (Afterlife.get_inst (Afterlife.insts st) o) + 1)
     mod List.length
           (Afterlife.notes (Afterlife.get_inst (Afterlife.insts st) o)))
    %nat.
Proof.
  unfold Afterlife.start_note.
  destruct (nth_error _ _) as [[n|ns|]|]; try discriminate.
  - destruct (Dict.get _ _ _); [|discriminate].
    intros [= <-]. cbn [Afterlife.insts].
    now rewrite afterlife_get_set_inst.
  - destruct (lookup_freqs ns); [|discriminate].
    intros [= <-]. cbn [Afterlife.insts].
    now rewrite afterlife_get_set_inst.
Qed.

(** C3 (as stated, fails in [afterlife.py]).  From the initial state the
    key [e] of the snowman goes down and up again.  The key-up empties
    the held-key set and stops the voice, and the cursor stays at 1, where
    the key-down has put it. *)
Lemma afterlife_key_up_keeps_cursor :
  let st1 := state_of (Afterlife.on_press (KeyChar "e") Afterlife.init) in
  let st2 := Afterlife.on_release (KeyChar "e") st1 in
  Afterlife.index (Afterlife.snowman (Afterlife.insts Afterlife.init))
    = 0%nat /\
  Afterlife.index (Afterlife.snowman (Afterlife.insts st1)) = 1%nat /\
  Afterlife.held_keys (Afterlife.snowman (Afterlife.insts st1))
    = ["e"%char] /\
  Afterlife.held_keys (Afterlife.snowman (Afterlife.insts st2)) = [] /\
  Dict.get String.eqb (Afterlife.active_freqs st2) "snowman"
    = Some None /\
  Afterlife.index (Afterlife.snowman (Afterlife.insts st2)) = 1%nat /\
  Afterlife.index (Afterlife.snowman (Afterlife.insts st2))
  <> ((Afterlife.index (Afterlife.snowman (Afterlife.insts st1)) + 1)
      mod List.length
            (Afterlife.notes
               (Afterlife.snowman (Afterlife.insts st1))))%nat.
Proof.
  cbn zeta. repeat split; try reflexivity.
  cbn. discriminate.
Qed.

Lemma wayDown_start_note_index o o' st :
  WayDown.index
    (WayDown.get_inst (WayDown.insts (state_of (WayDown.start_note o st)))
       o')
  = WayDown.index (WayDown.get_inst (WayDown.insts st) o').
Proof.
  unfold WayDown.start_note.
  destruct (_ || _); cbn [state_of]; [reflexivity|].
  assert (P : WayDown.index
      (WayDown.get_inst
         (WayDown.set_inst (WayDown.insts st) o
            (WayDown.set_pressed
               (WayDown.get_inst (WayDown.insts st) o) true)) o')
    = WayDown.index (WayDown.get_inst (WayDown.insts st) o'))
    by (destruct o, o'; reflexivity).
  destruct (nth_error _ _) as [[n|ns|]|]; cbn [state_of WayDown.insts];
    try exact P.
  - destruct (Dict.get _ _ _); cbn [state_of WayDown.insts WayDown.install];
      exact P.
  - destruct (lookup_freqs ns);
      cbn [state_of WayDown.insts WayDown.install]; exact P.
Qed.

(** C3 (as amended).  In [wayDown.py] the key-up of a sounding instrument
    stops its voice at once, with no release tail, and moves its cursor
    one step forward, modulo the length of the arrangement; a key-down
    moves no cursor.  In [afterlife.py] the key-up that empties the
    held-key set of an instrument stops its voice at once and leaves its
    cursor where it is: there the cursor moves one step forward, modulo
    the length of the arrangement, on each key-down that starts a note. *)
Theorem cursor_advance_edge :
  (forall ch o st,
     Dict.get Ascii.eqb WayDown.KEYMAP ch = Some o ->
     let inst := WayDown.get_inst (WayDown.insts st) o in
     WayDown.is_pressed inst = true ->
     WayDown.notes inst <> [] ->
     exists st',
       WayDown.on_release (KeyChar ch) st = Ok st' tt /\
       Dict.get String.eqb (WayDown.active_freqs st') (WayDown.name inst)
         = Some None /\
       Dict.get String.eqb (WayDown.phases st') (WayDown.name inst)
         = Some [] /\
       WayDown.get_inst (WayDown.insts st') o
       = WayDown.mkInstrument (WayDown.notes inst) (WayDown.name inst)
           ((WayDown.index inst + 1)
            mod List.length (WayDown.notes inst))%nat
           false) /\
  (forall key o st,
     WayDown.index
       (WayDown.get_inst
          (WayDown.insts (state_of (WayDown.on_press key st))) o)
     = WayDown.index (WayDown.get_inst (WayDown.insts st) o)) /\
  (forall ch o st,
     Dict.get Ascii.eqb Afterlife.KEYMAP ch = Some o ->
     let inst := Afterlife.get_inst (Afterlife.insts st) o in
     Afterlife.discard_key (Afterlife.held_keys inst) ch = [] ->
     let st' := Afterlife.on_release (KeyChar ch) st in
     Dict.get String.eqb (Afterlife.active_freqs st') (Afterlife.name inst)
       = Some None /\
     Dict.get String.eqb (Afterlife.phases st') (Afterlife.name inst)
       = Some [] /\
     Afterlife.get_inst (Afterlife.insts st') o
     = Afterlife.mkInstrument (Afterlife.notes inst) (Afterlife.name inst)
         (Afterlife.index inst) []) /\
  (forall ch o st st',
     Dict.get Ascii.eqb Afterlife.KEYMAP ch = Some o ->
     let inst := Afterlife.get_inst (Afterlife.insts st) o in
     Afterlife.held (Afterlife.held_keys inst) ch = false ->
     Afterlife.on_press (KeyChar ch) st = Ok st' tt ->
     Afterlife.index (Afterlife.get_inst (Afterlife.insts st') o)
     = ((Afterlife.index inst + 1)
        mod List.length (Afterlife.notes inst))%nat).
Proof.
  split; [|split; [|split]].
  - intros ch o st Hk inst Hp Hn.
    cbn [WayDown.on_release]. rewrite Hk. unfold WayDown.stop_note.
    fold inst. rewrite Hp. cbn [negb].
    destruct (WayDown.notes inst) as [|nd nds] eqn:En; [congruence|].
    cbn [List.length]. eexists. split; [reflexivity|].
    cbn [WayDown.active_freqs WayDown.phases WayDown.insts].
    rewrite !(get_set_same String.eqb String.eqb_eq).
    rewrite wayDown_get_set_inst.
    unfold WayDown.set_index, WayDown.set_pressed.
    cbn [WayDown.notes WayDown.name WayDown.index WayDown.is_pressed].
    rewrite En. repeat split.
  - intros key o st. destruct key as [ch| |];
      cbn [WayDown.on_press state_of]; try reflexivity.
    destruct (Dict.get Ascii.eqb WayDown.KEYMAP ch) as [o'|];
      cbn [state_of]; [|reflexivity].
    apply wayDown_start_note_index.
  - intros ch o st Hk inst Hd st'. unfold st'.
    cbn [Afterlife.on_release]. rewrite Hk. fold inst. rewrite Hd.
    unfold Afterlife.stop_note.
    cbn [Afterlife.active_freqs Afterlife.phases Afterlife.insts].
    rewrite !afterlife_get_set_inst.
    cbn [Afterlife.set_held Afterlife.name].
    rewrite !(get_set_same String.eqb String.eqb_eq).
    repeat split.
  - intros ch o st st' Hk inst Hh.
    cbn [Afterlife.on_press]. rewrite Hk. fold inst. rewrite Hh.
    intros Hs. apply afterlife_start_note_index in Hs. rewrite Hs.
    cbn [Afterlife.insts]. rewrite afterlife_get_set_inst.
    reflexivity.
Qed.

Lemma cursor_advance_edge_witness :
  let st' := Afterlife.on_release (KeyChar "e") afterlife_e_down in
  Dict.get String.eqb (Afterlife.active_freqs st') "snowman" = Some None /\
  Dict.get String.eqb (Afterlife.phases st') "snowman" = Some [] /\
  Afterlife.get_inst (Afterlife.insts st') Snowman
  = Afterlife.mkInstrument Afterlife.NOTES_SNOWMAN "snowman" 1 [].
Proof.
  exact (proj1 (proj2 (proj2 cursor_advance_edge)) "e"%char Snowman
           afterlife_e_down eq_refl eq_refl).
Defined.

(** ** The release of a voice of [synth.py] *)

Lemma ramp_last n seconds target lvl :
  last_elt (Synth.ramp (S n) seconds target lvl)
  = Some (clip 0 1
            (lvl + (target - lvl) / IZR (Synth.total_samples seconds)
                   * INR n)).
Proof.
  unfold Synth.ramp. rewrite map_map. apply last_elt_map_arange.
Qed.

Lemma ramp_nth frames seconds target lvl j :
  (j < frames)%nat ->
  nth_error (Synth.ramp frames seconds target lvl) j
  = Some (clip 0 1
            (lvl + (target - lvl) / IZR (Synth.total_samples seconds)
                   * INR j)).
Proof.
  intros H. unfold Synth.ramp.
  now rewrite map_map, nth_error_map, nth_error_arange.
Qed.

Lemma envelope_release n lvl :
  Synth.envelope (S n) "release" lvl
  = Some (Synth.ramp (S n) Synth.RELEASE_TIME 0 lvl,
          clip 0 1 (lvl + (0 - lvl) / 2205 * INR n),
          "release"%string,
          if Rle_dec (clip 0 1 (lvl + (0 - lvl) / 2205 * INR n)) 0.001
          then true else false).
Proof.
  unfold Synth.envelope. cbn [String.eqb Ascii.eqb Bool.eqb].
  now rewrite ramp_last, total_samples_release.
Qed.

Lemma note_loop_keys frames t items sig an sig' rm :
  Synth.note_loop frames t items sig = Ok an (sig', rm) ->
  map fst an = map fst items /\ incl rm (map fst items).
Proof.
  revert sig an sig' rm.
  induction items as [|[m0 n0] items IH]; intros sig an sig' rm;
    cbn [Synth.note_loop].
  - intros [= <- _ <-]. split; [reflexivity|apply incl_refl].
  - destruct (Synth.render_note _ _ _ _) as [[[w0 n0'] r0]|];
      [|discriminate].
    destruct (Synth.note_loop _ _ _ _) as [rest [s r]|] eqn:E;
      [|discriminate].
    intros [= <- _ <-]. destruct (IH _ _ _ _ E) as [K I].
    cbn [map fst]. split; [now rewrite K|].
    destruct r0.
    + apply incl_cons; [now left|]. now apply incl_tl.
    + now apply incl_tl.
Qed.

(** What the loop does to the note of one pitch. *)
Lemma note_loop_get frames t items sig an sig' rm midi note :
  NoDup (map fst items) ->
  Synth.note_loop frames t items sig = Ok an (sig', rm) ->
  Dict.get Z.eqb items midi = Some note ->
  exists wave note' r,
    Synth.render_note frames t midi note = Some (wave, note', r) /\
    Dict.get Z.eqb an midi = Some note' /\
    (In midi rm <-> r = true).
Proof.
  revert sig an sig' rm.
  induction items as [|[m0 n0] items IH]; intros sig an sig' rm ND;
    cbn [Synth.note_loop Dict.get]; [discriminate|].
  inversion ND as [|? ? Hn ND']; subst.
  destruct (Synth.render_note frames t m0 n0) as [[[w0 n0'] r0]|] eqn:R0;
    [|discriminate].
  destruct (Synth.note_loop _ _ _ _) as [rest [s r]|] eqn:E;
    [|discriminate].
  intros [= <- _ <-].
  destruct (note_loop_keys _ _ _ _ _ _ _ E) as [_ I].
  cbn [Dict.get].
  destruct (Z.eqb_spec midi m0) as [->|Hne].
  - intros [= <-]. exists w0, n0', r0. split; [assumption|].
    split; [reflexivity|].
    destruct r0; split; intros H; try discriminate; try reflexivity;
      try (now left).
    exfalso. apply Hn. now apply I.
  - intros G. destruct (IH _ _ _ _ ND' E G) as (w & n' & r1 & A & B & C).
    exists w, n', r1. split; [assumption|]. split; [assumption|].
    rewrite <- C. destruct r0; [|reflexivity].
    split; [intros [H|H]; [congruence|assumption]|now right].
Qed.

Lemma remove_notes_keys an rm x :
  In x (map fst (Synth.remove_notes an rm)) -> In x (map fst an).
Proof.
  unfold Synth.remove_notes. revert an.
  induction rm as [|m rm IH]; intros an; simpl; [tauto|].
  intros H. apply IH in H. now apply keys_remove_incl in H.
Qed.

Lemma remove_notes_removed an rm midi :
  NoDup (map fst an) -> In midi rm ->
  Dict.get Z.eqb (Synth.remove_notes an rm) midi = None.
Proof.
  intros ND Hin. apply (get_None_keys Z.eqb Z.eqb_eq).
  unfold Synth.remove_notes. revert an ND.
  induction rm as [|m rm IH]; intros an ND; [destruct Hin|].
  simpl. destruct (Z.eq_dec m midi) as [->|Hne].
  - intros H. apply remove_notes_keys in H.
    now apply (remove_absent_key Z.eqb Z.eqb_eq) in H.
  - destruct Hin as [H|H]; [contradiction|].
    apply IH; [assumption|]. now apply nodup_remove.
Qed.

Lemma remove_notes_kept an rm midi :
  ~ In midi rm ->
  Dict.get Z.eqb (Synth.remove_notes an rm) midi = Dict.get Z.eqb an midi.
Proof.
  unfold Synth.remove_notes. revert an.
  induction rm as [|m rm IH]; intros an Hn; [reflexivity|].
  simpl. rewrite IH by (intros H; apply Hn; now right).
  apply (get_remove_other Z.eqb Z.eqb_eq).
  intros ->. apply Hn. now left.
Qed.

Lemma release_samples : Synth.RELEASE_TIME * SAMPLE_RATE = 2205.
Proof. unfold Synth.RELEASE_TIME, SAMPLE_RATE. lra. Qed.

Lemma render_note_release n t midi note wave note' rm :
  Synth.env_state note = "release"%string ->
  Synth.render_note (S n) t midi note = Some (wave, note', rm) ->
  let level_end :=
    clip 0 1
      (Synth.env_level note
       - Synth.env_level note * INR n
         / (Synth.RELEASE_TIME * SAMPLE_RATE)) in
  Synth.env_level note' = level_end /\
  Synth.env_state note' = "release"%string /\
  rm = (if Rle_dec level_end 0.001 then true else false).
Proof.
  intros Hs. unfold Synth.render_note.
  rewrite Hs, envelope_release.
  destruct (last_elt _); [|discriminate].
  intros [= _ <- <-]. cbn [Synth.env_level Synth.env_state].
  replace (Synth.env_level note
           - Synth.env_level note * INR n
             / (Synth.RELEASE_TIME * SAMPLE_RATE))
    with (Synth.env_level note + (0 - Synth.env_level note) / 2205 * INR n)
    by (rewrite release_samples; field).
  repeat split.
Qed.

Lemma synth_full_release_render :
  exists wave p,
    Synth.render_note 2205
      (map (fun n => n / SAMPLE_RATE) (arange 2205)) 69
      (Synth.mkNote 0 1 "release")
    = Some (wave, Synth.mkNote p (1 / 2205) "release", true).
Proof.
  assert (L : clip 0 1 (1 + (0 - 1) / 2205 * INR 2204) = 1 / 2205).
  { rewrite INR_IZR_INZ. change (Z.of_nat 2204) with 2204%Z.
    replace (1 + (0 - 1) / 2205 * 2204) with (1 / 2205) by lra.
    apply clip_id. lra. }
  unfold Synth.render_note. cbn [Synth.env_state Synth.env_level].
  rewrite (envelope_release 2204), L.
  rewrite !map_map, (last_elt_map_arange _ 2204).
  destruct (Rle_dec (1 / 2205) 0.001) as [_|H]; [|exfalso; lra].
  eexists. eexists. reflexivity.
Qed.

Lemma synth_full_release_block :
  exists out,
    Synth.audio_callback 2205 synth_full_release
    = Ok (Synth.set_active_notes synth_full_release []) out.
Proof.
  destruct synth_full_release_render as (wave & p & R).
  eexists. unfold Synth.audio_callback, synth_full_release.
  cbn [Synth.active_notes Synth.note_loop]. rewrite R.
  cbn [Synth.remove_notes fold_left Dict.remove Z.eqb Pos.eqb].
  reflexivity.
Qed.

(** C6 (as stated, fails).  The voice of pitch 69 is at level 1 at the
    start of its release and a block of 2205 frames is rendered.  The
    last frame of the ramp is at [1 / 2205], which is below 0.001: the
    voice is removed at the end of this block, and the level written to
    it before is [1 / 2205], not 0. *)
Lemma release_level_not_clamped :
  exists st' out wave note',
    Synth.audio_callback 2205 synth_full_release = Ok st' out /\
    Synth.active_notes st' = [] /\
    Synth.render_note 2205
      (map (fun n => n / SAMPLE_RATE) (arange 2205)) 69
      (Synth.mkNote 0 1 "release")
    = Some (wave, note', true) /\
    Synth.env_level note' = 1 / 2205 /\
    Synth.env_level note' <> 0.
Proof.
  destruct synth_full_release_render as (wave & p & R).
  destruct synth_full_release_block as (out & B).
  eexists. exists out, wave. eexists.
  split; [exact B|]. split; [reflexivity|]. split; [exact R|].
  cbn [Synth.env_level]. split; [reflexivity|lra].
Qed.

(** C6 (as amended).  In its release the envelope of a voice is, frame by
    frame, the line from its level at the start of the block toward 0
    over [RELEASE_TIME * SAMPLE_RATE] frames, kept within [[0, 1]].  The
    level written back is the last frame of that line, as it is.  When
    this last frame is at most 0.001 the voice is gone from the voice
    store after the same callback; otherwise the voice stays, in its
    release, at that level. *)
Theorem release_ramp_and_removal :
  (forall frames lvl j,
     (j < frames)%nat ->
     nth_error (Synth.ramp frames Synth.RELEASE_TIME 0 lvl) j
     = Some (clip 0 1
               (lvl - lvl * INR j / (Synth.RELEASE_TIME * SAMPLE_RATE)))) /\
  (forall n st st' out midi note,
     NoDup (map fst (Synth.active_notes st)) ->
     Dict.get Z.eqb (Synth.active_notes st) midi = Some note ->
     Synth.env_state note = "release"%string ->
     Synth.audio_callback (S n) st = Ok st' out ->
     let level_end :=
       clip 0 1
         (Synth.env_level note
          - Synth.env_level note * INR n
            / (Synth.RELEASE_TIME * SAMPLE_RATE)) in
     (level_end <= 0.001 ->
      Dict.get Z.eqb (Synth.active_notes st') midi = None) /\
     (0.001 < level_end ->
      exists p,
        Dict.get Z.eqb (Synth.active_notes st') midi
        = Some (Synth.mkNote p level_end "release"))).
Proof.
  split.
  - intros frames lvl j Hj. rewrite (ramp_nth _ _ _ _ _ Hj).
    rewrite total_samples_release, release_samples. do 2 f_equal.
    field.
  - intros n st st' out midi note ND Hg Hs. unfold Synth.audio_callback.
    destruct (Synth.active_notes st) as [|kv items] eqn:Ean;
      [discriminate|].
    destruct (Synth.note_loop _ _ _ _) as [an [sig rm]|] eqn:E;
      [|discriminate].
    intros [= <- _]. set (level_end := clip 0 1 _).
    cbn [Synth.set_active_notes Synth.active_notes].
    destruct (note_loop_keys _ _ _ _ _ _ _ E) as [K _].
    destruct (note_loop_get _ _ _ _ _ _ _ _ _ ND E Hg)
      as (wave & note' & r & Hr & Ha & Hrm).
    destruct (render_note_release _ _ _ _ _ _ _ Hs Hr) as (A & B & C).
    fold level_end in A, C.
    split.
    + intros Hle. apply remove_notes_removed; [now rewrite K|].
      apply Hrm. rewrite C.
      destruct (Rle_dec level_end 0.001); [reflexivity|contradiction].
    + intros Hlt. exists (Synth.phase note').
      rewrite remove_notes_kept.
      * rewrite Ha. destruct note' as [p l s]. cbn in A, B. now subst.
      * intros Hin. apply Hrm in Hin. rewrite C in Hin.
        destruct (Rle_dec level_end 0.001); [lra|discriminate].
Qed.

Lemma release_ramp_and_removal_witness :
  exists st' out,
    Synth.audio_callback 2205 synth_full_release = Ok st' out /\
    Dict.get Z.eqb (Synth.active_notes st') 69%Z = None.
Proof.
  destruct synth_full_release_block as (out & B).
  eexists. exists out. split; [exact B|].
  apply (proj2 release_ramp_and_removal 2204%nat synth_full_release _ out
           69%Z (Synth.mkNote 0 1 "release")).
  - cbn. repeat constructor. intros [].
  - reflexivity.
  - reflexivity.
  - exact B.
  - cbn [Synth.env_level]. rewrite release_samples.
    rewrite INR_IZR_INZ. change (Z.of_nat 2204) with 2204%Z.
    replace (1 - 1 * 2204 / 2205) with (1 / 2205) by lra.
    rewrite clip_id; lra.
Defined.

(** ** The range of the output *)

Lemma column_stack_clipped mix :
  Forall row_in_unit
    (column_stack (map (clip (-1) 1) mix) (map (clip (-1) 1) mix)).
Proof.
  induction mix as [|x mix IH]; [constructor|].
  cbn [map column_stack combine]. constructor; [|exact IH].
  unfold row_in_unit, in_unit. cbn [fst snd].
  pose proof (clip_range (-1) 1 x). lra.
Qed.

Lemma wayDown_output_clipped frames st st' out :
  WayDown.audio_callback frames st = Ok st' out ->
  Forall row_in_unit out.
Proof.
  unfold WayDown.audio_callback.
  destruct (WayDown.inst_loop _ _ _ _ _); [|discriminate].
  intros [= _ <-]. apply column_stack_clipped.
Qed.

Lemma afterlife_output_clipped frames st st' out :
  Afterlife.audio_callback frames st = Ok st' out ->
  Forall row_in_unit out.
Proof.
  unfold Afterlife.audio_callback.
  destruct (Afterlife.inst_loop _ _ _ _ _); [|discriminate].
  intros [= _ <-]. apply column_stack_clipped.
Qed.

Lemma map2_Forall (P Q S : R -> Prop) f u v :
  (forall x y, P x -> Q y -> S (f x y)) ->
  Forall P u -> Forall Q v -> Forall S (map2 f u v).
Proof.
  intros H Fu. revert v.
  induction Fu as [|x u Hx Fu IH]; intros v Fv; [constructor|].
  destruct Fv as [|y v Hy Fv]; cbn [map2]; constructor; auto.
Qed.

Lemma wave_bound p : Rabs (sin p + 0.3 * sin (2 * p)) <= 1.3.
Proof.
  pose proof (SIN_bound p). pose proof (SIN_bound (2 * p)).
  apply Rabs_le. lra.
Qed.

Lemma render_note_bound frames t midi note wave note' rm :
  0 <= Synth.env_level note <= 1 ->
  Synth.render_note frames t midi note = Some (wave, note', rm) ->
  Forall (fun x => Rabs x <= 1.3) wave.
Proof.
  intros Hl. unfold Synth.render_note.
  destruct (Synth.envelope _ _ _) as [[[[ev le] se] r]|] eqn:E;
    [|discriminate].
  destruct (last_elt _); [|discriminate].
  intros [= <- _ _].
  destruct (envelope_unit _ _ _ _ _ _ _ Hl E) as (Fe & _ & _).
  unfold vmul.
  apply map2_Forall
    with (P := fun x => Rabs x <= 1.3) (Q := fun e => 0 <= e <= 1);
    [| |exact Fe].
  - intros x e Hx He. rewrite Rabs_mult, (Rabs_pos_eq e) by lra.
    pose proof (Rabs_pos x). nra.
  - apply Forall_map, Forall_forall. intros p _. apply wave_bound.
Qed.

Lemma note_loop_bound frames t items sig an sig' rm c :
  Forall (fun kv => 0 <= Synth.env_level (snd kv) <= 1) items ->
  Forall (fun x => Rabs x <= c) sig ->
  Synth.note_loop frames t items sig = Ok an (sig', rm) ->
  Forall (fun x => Rabs x <= c + 1.3 * INR (List.length items)) sig'.
Proof.
  intros F. revert sig an sig' rm c.
  induction F as [|[midi note] items H F IH]; intros sig an sig' rm c Fs;
    cbn [Synth.note_loop].
  - intros [= _ <- _]. cbn [List.length INR].
    eapply Forall_impl; [|exact Fs]. cbn beta. intros x Hx. lra.
  - destruct (Synth.render_note _ _ _ _) as [[[wave note'] r]|] eqn:E;
      [|discriminate].
    destruct (Synth.note_loop _ _ _ _) as [rest [s r']|] eqn:E';
      [|discriminate].
    intros [= _ <- _].
    assert (Fw : Forall (fun x => Rabs x <= c + 1.3) (vadd sig wave)).
    { unfold vadd.
      apply map2_Forall
        with (P := fun x => Rabs x <= c) (Q := fun x => Rabs x <= 1.3);
        [|exact Fs|exact (render_note_bound _ _ _ _ _ _ _ H E)].
      intros x y Hx Hy. pose proof (Rabs_triang x y). lra. }
    specialize (IH _ _ _ _ _ Fw E').
    eapply Forall_impl; [|exact IH]. cbn beta. intros x Hx.
    change (List.length ((midi, note) :: items))
      with (S (List.length items)).
    rewrite S_INR. lra.
Qed.

(** The output of [synth.py] is the mix scaled by the master gain over
    the number of voices that are left after the block. *)
Lemma synth_output_bound frames st st' out :
  Synth.levels_ok st ->
  Synth.audio_callback frames st = Ok st' out ->
  Forall
    (fun x =>
       Rabs x
       <= 1.3 * Synth.MASTER_GAIN
          * INR (List.length (Synth.active_notes st))
          / INR (Nat.max 1 (List.length (Synth.active_notes st'))))
    out.
Proof.
  unfold Synth.levels_ok, Synth.audio_callback. intros F.
  destruct (Synth.active_notes st) as [|kv items] eqn:Ean.
  - intros [= <- <-]. rewrite Ean. apply Forall_repeat.
    cbn. rewrite Rabs_R0. lra.
  - destruct (Synth.note_loop _ _ _ _) as [an [sig rm]|] eqn:E;
      [|discriminate].
    intros [= <- <-]. cbn [Synth.set_active_notes Synth.active_notes].
    assert (F0 : Forall (fun x => Rabs x <= 0) (zeros frames)).
    { apply Forall_repeat. rewrite Rabs_R0. lra. }
    pose proof (note_loop_bound _ _ _ _ _ _ _ _ F F0 E) as B.
    set (k := Nat.max 1 (List.length (Synth.remove_notes an rm))).
    assert (Hk : 1 <= INR k).
    { change 1 with (INR 1). apply le_INR. unfold k. lia. }
    apply Forall_map. eapply Forall_impl; [|exact B]. cbn beta.
    intros x Hx. unfold Synth.MASTER_GAIN in *.
    rewrite Rabs_mult.
    assert (Hg : 0 < 0.4 / INR k).
    { apply Rdiv_lt_0_compat; lra. }
    change (Rabs x * Rabs (0.4 / INR k)
            <= 1.3 * 0.4 * INR (List.length (kv :: items)) / INR k).
    rewrite (Rabs_pos_eq (0.4 / INR k)) by lra.
    replace (1.3 * 0.4 * INR (List.length (kv :: items)) / INR k)
      with ((1.3 * INR (List.length (kv :: items))) * (0.4 / INR k))
      by (field; lra).
    apply Rmult_le_compat_r; lra.
Qed.

(** A voice at full level at the start of its release, rendered over a
    block of more than 2205 frames: its envelope reaches 0 within the
    block, so the voice is scheduled for removal. *)
Lemma render_note_release_full n midi ph :
  (2205 <= n)%nat ->
  Synth.render_note (S n)
    (map (fun k => k / SAMPLE_RATE) (arange (S n))) midi
    (Synth.mkNote ph 1 "release")
  = Some
      (vmul
         (map (fun p => sin p + 0.3 * sin (2 * p))
            (map (fun x => ph + 2 * PI * Synth.midi_to_freq midi * x)
               (map (fun k => k / SAMPLE_RATE) (arange (S n)))))
         (Synth.ramp (S n) Synth.RELEASE_TIME 0 1),
       Synth.mkNote
         (py_mod
            (ph + 2 * PI * Synth.midi_to_freq midi * (INR n / SAMPLE_RATE)
             + 2 * PI * Synth.midi_to_freq midi / SAMPLE_RATE)
            (2 * PI))
         0 "release",
       true).
Proof.
  intros Hn.
  assert (L : clip 0 1 (1 + (0 - 1) / 2205 * INR n) = 0).
  { apply clip_below; [lra|].
    apply le_INR in Hn. rewrite (INR_IZR_INZ 2205) in Hn.
    change (Z.of_nat 2205) with 2205%Z in Hn. lra. }
  unfold Synth.render_note. cbn [Synth.env_state Synth.env_level
    Synth.phase].
  rewrite envelope_release, L.
  rewrite !map_map, last_elt_map_arange.
  destruct (Rle_dec 0 0.001) as [_|H]; [|exfalso; lra].
  reflexivity.
Qed.

Lemma release_wave_head n (f : R -> R) ph :
  nth_error
    (vmul
       (map (fun p => sin p + 0.3 * sin (2 * p))
          (map (fun x => ph + f x)
             (map (fun k => k / SAMPLE_RATE) (arange (S n)))))
       (Synth.ramp (S n) Synth.RELEASE_TIME 0 1)) 0
  = Some ((sin (ph + f (0 / SAMPLE_RATE))
           + 0.3 * sin (2 * (ph + f (0 / SAMPLE_RATE))))
          * clip 0 1 (1 + (0 - 1) / 2205 * 0)).
Proof.
  unfold vmul. apply nth_error_map2.
  - rewrite !nth_error_map, nth_error_arange by lia. reflexivity.
  - rewrite ramp_nth by lia. now rewrite total_samples_release.
Qed.

Lemma sin_4PI3 : sin (2 * (2 * (PI / 3))) = - (sqrt 3 / 2).
Proof. rewrite sin_2a, sin_2PI3, cos_2PI3. lra. Qed.

Lemma sqrt3_lower : 1.5 < sqrt 3.
Proof.
  pose proof (sqrt_sqrt 3 ltac:(lra)) as H.
  pose proof Rlt_sqrt3_0 as P.
  destruct (Rlt_le_dec 1.5 (sqrt 3)) as [L|L]; [exact L|]. nra.
Qed.

(** C2 (as stated, fails in [synth.py]).  Five voices at full level start
    their release, each a third of a turn into its period, and a block
    of 2206 frames is rendered.  All five are removed at the end of the
    block, so the mix is scaled by [MASTER_GAIN / 1], and its first
    frame, [0.7 * sqrt 3], is written to the output unclipped. *)
Lemma synth_output_exceeds_one :
  exists st' out,
    Synth.audio_callback 2206 synth_five_released = Ok st' out /\
    Synth.active_notes st' = [] /\
    nth_error out 0 = Some (0.7 * sqrt 3) /\
    1 < 0.7 * sqrt 3.
Proof.
  assert (H2205 : (2205 <= 2205)%nat) by apply le_n.
  eexists. eexists. split; [|split; [|split]].
  - unfold Synth.audio_callback, synth_five_released.
    cbn [Synth.active_notes Synth.note_loop].
    rewrite !(render_note_release_full 2205 _ _ H2205).
    cbn [Synth.remove_notes fold_left Dict.remove Z.eqb Pos.eqb
         Synth.set_active_notes List.length Nat.max].
    reflexivity.
  - reflexivity.
  - rewrite nth_error_map. unfold vadd.
    erewrite !nth_error_map2;
      try (apply (release_wave_head 2205
                    (fun x => 2 * PI * Synth.midi_to_freq _ * x)));
      [|reflexivity].
    cbn [option_map INR]. f_equal.
    rewrite ?total_samples_release.
    replace (0 / SAMPLE_RATE) with 0 by (unfold SAMPLE_RATE; lra).
    rewrite !Rmult_0_r, !Rplus_0_r, sin_2PI3, sin_4PI3.
    rewrite (clip_id 0 1 1) by lra.
    unfold Synth.MASTER_GAIN. lra.
  - pose proof sqrt3_lower. lra.
Qed.

Lemma Rabs_le_between a b : Rabs a <= b -> - b <= a <= b.
Proof. unfold Rabs. destruct (Rcase_abs a); lra. Qed.

(** C2 (as amended).  In [wayDown.py] and [afterlife.py] both channels of
    every row written to the output lie in [[-1, 1]]: the mix is clipped.
    [synth.py] does not clip: its output is the mix times
    [MASTER_GAIN / max(1, voices left after the block)], so with levels
    in [[0, 1]] a sample is at most [1.3 * MASTER_GAIN] times the number
    of voices before the block over the number of voices after it (at
    least 1), and lies in [[-1, 1]] whenever the block removes no
    voice. *)
Theorem output_range :
  (forall frames st st' out,
     WayDown.audio_callback frames st = Ok st' out ->
     Forall row_in_unit out) /\
  (forall frames st st' out,
     Afterlife.audio_callback frames st = Ok st' out ->
     Forall row_in_unit out) /\
  (forall frames st st' out,
     Synth.levels_ok st ->
     Synth.audio_callback frames st = Ok st' out ->
     Forall
       (fun x =>
          Rabs x
          <= 1.3 * Synth.MASTER_GAIN
             * INR (List.length (Synth.active_notes st))
             / INR (Nat.max 1 (List.length (Synth.active_notes st'))))
       out /\
     (List.length (Synth.active_notes st')
      = List.length (Synth.active_notes st) ->
      Forall in_unit out)).
Proof.
  split; [exact wayDown_output_clipped|].
  split; [exact afterlife_output_clipped|].
  intros frames st st' out Hl Hc.
  pose proof (synth_output_bound _ _ _ _ Hl Hc) as B.
  split; [exact B|].
  intros E. rewrite E in B. eapply Forall_impl; [|exact B]. cbn beta.
  intros x Hx. unfold in_unit, Synth.MASTER_GAIN in *.
  destruct (List.length (Synth.active_notes st)) as [|k].
  - cbn in Hx. apply Rabs_le_between in Hx. lra.
  - replace (Nat.max 1 (S k)) with (S k) in Hx by lia.
    assert (0 < INR (S k)) by (apply lt_0_INR; lia).
    replace (1.3 * 0.4 * INR (S k) / INR (S k)) with 0.52 in Hx
      by (unfold Rdiv; rewrite Rmult_assoc, Rinv_r; lra).
    apply Rabs_le_between in Hx. lra.
Qed.

Lemma output_range_witness :
  exists out,
    Synth.audio_callback 2205 synth_full_release
    = Ok (Synth.set_active_notes synth_full_release []) out /\
    Forall
      (fun x =>
         Rabs x <= 1.3 * Synth.MASTER_GAIN * INR 1 / INR (Nat.max 1 0))
      out.
Proof.
  destruct synth_full_release_block as (out & B).
  exists out. split; [exact B|].
  assert (L : Synth.levels_ok synth_full_release)
    by (repeat constructor; cbn; lra).
  exact (proj1 (proj2 (proj2 output_range) 2205%nat synth_full_release
                  _ out L B)).
Defined.

(** ** The states of the examples are states of the program *)

Lemma run_press st0 st key st' :
  Synth.Run st0 st -> state_of (Synth.on_press key st) = st' ->
  Synth.Run st0 st'.
Proof. intros R <-. eapply Synth.run_step; [exact R|constructor]. Qed.

Lemma run_release st0 st key st' :
  Synth.Run st0 st -> Synth.on_release key st = st' -> Synth.Run st0 st'.
Proof. intros R <-. eapply Synth.run_step; [exact R|constructor]. Qed.

Lemma run_render st0 st frames st' :
  Synth.Run st0 st ->
  (exists out, Synth.audio_callback frames st = Ok st' out) ->
  Synth.Run st0 st'.
Proof.
  intros R [out E].
  replace st' with (state_of (Synth.audio_callback frames st))
    by now rewrite E.
  eapply Synth.run_step; [exact R|constructor].
Qed.

Lemma attack_samples : Synth.ATTACK_TIME * SAMPLE_RATE = 441.
Proof. unfold Synth.ATTACK_TIME, SAMPLE_RATE. lra. Qed.

(** A fresh voice rendered over more than 441 frames ends the block in
    its sustain, at level 1. *)
Lemma render_note_attack_full n midi ph :
  (441 <= n)%nat ->
  Synth.render_note (S n)
    (map (fun k => k / SAMPLE_RATE) (arange (S n))) midi
    (Synth.mkNote ph 0 "attack")
  = Some
      (vmul
         (map (fun p => sin p + 0.3 * sin (2 * p))
            (map (fun x => ph + 2 * PI * Synth.midi_to_freq midi * x)
               (map (fun k => k / SAMPLE_RATE) (arange (S n)))))
         (full (S n) 1),
       Synth.mkNote
         (py_mod
            (ph + 2 * PI * Synth.midi_to_freq midi * (INR n / SAMPLE_RATE)
             + 2 * PI * Synth.midi_to_freq midi / SAMPLE_RATE)
            (2 * PI))
         1 "sustain",
       false).
Proof.
  intros Hn.
  assert (L : clip 0 1 (0 + (1 - 0) / 441 * INR n) = 1).
  { apply clip_above; [lra|].
    apply le_INR in Hn. rewrite (INR_IZR_INZ 441) in Hn.
    change (Z.of_nat 441) with 441%Z in Hn. lra. }
  unfold Synth.render_note, Synth.envelope.
  cbn [Synth.env_state Synth.env_level Synth.phase String.eqb Ascii.eqb
       Bool.eqb].
  rewrite ramp_last, total_samples_attack, L.
  rewrite !map_map, last_elt_map_arange.
  destruct (Rle_dec 0.999 1) as [_|H]; [|exfalso; lra].
  reflexivity.
Qed.

(** A voice in its sustain stays there, at its level. *)
Lemma render_note_sustain n midi ph lvl :
  Synth.render_note (S n)
    (map (fun k => k / SAMPLE_RATE) (arange (S n))) midi
    (Synth.mkNote ph lvl "sustain")
  = Some
      (vmul
         (map (fun p => sin p + 0.3 * sin (2 * p))
            (map (fun x => ph + 2 * PI * Synth.midi_to_freq midi * x)
               (map (fun k => k / SAMPLE_RATE) (arange (S n)))))
         (full (S n) lvl),
       Synth.mkNote
         (py_mod
            (ph + 2 * PI * Synth.midi_to_freq midi * (INR n / SAMPLE_RATE)
             + 2 * PI * Synth.midi_to_freq midi / SAMPLE_RATE)
            (2 * PI))
         lvl "sustain",
       false).
Proof.
  unfold Synth.render_note, Synth.envelope.
  cbn [Synth.env_state Synth.env_level Synth.phase String.eqb Ascii.eqb
       Bool.eqb].
  rewrite !map_map, last_elt_map_arange. reflexivity.
Qed.

(** The pitches of the note A. *)
Lemma midi_to_freq_A (o : Z) (f : R) :
  f = 440 * powerRZ 2 o -> Synth.midi_to_freq (69 + 12 * o) = f.
Proof.
  intros ->. unfold Synth.midi_to_freq. f_equal.
  rewrite powerRZ_Rpower by lra. f_equal.
  rewrite plus_IZR, mult_IZR. field.
Qed.

(** The phase after a block, counted in turns. *)
Lemma phase_turns a f n (k : Z) r :
  0 <= r < 1 ->
  a + f * (INR n + 1) / 44100 = IZR k + r ->
  py_mod (2 * PI * a + 2 * PI * f * (INR n / SAMPLE_RATE)
          + 2 * PI * f / SAMPLE_RATE) (2 * PI)
  = 2 * PI * r.
Proof.
  intros Hr E. pose proof PI_RGT_0 as HPI.
  apply py_mod_unique with (k := k); [lra|nra|].
  replace (2 * PI * a + 2 * PI * f * (INR n / SAMPLE_RATE)
           + 2 * PI * f / SAMPLE_RATE)
    with (2 * PI * (a + f * (INR n + 1) / 44100))
    by (unfold SAMPLE_RATE; field).
  rewrite E. ring.
Qed.

(** ** What the handlers and the callback of [synth.py] never do *)


Lemma envelope_length frames s lvl vec lvl' s' rm :
  Synth.envelope frames s lvl = Some (vec, lvl', s', rm) ->
  List.length vec = frames.
Proof.
  unfold Synth.envelope.
  destruct (String.eqb s "attack").
  { destruct (last_elt _); [|discriminate].
    destruct (Rle_dec _ _); intros [= <- _ _ _];
      [apply repeat_length|apply ramp_length]. }
  destruct (String.eqb s "sustain").
  { intros [= <- _ _ _]. apply repeat_length. }
  destruct (String.eqb s "release").
  { destruct (last_elt _); [|discriminate].
    intros [= <- _ _ _]. apply ramp_length. }
  intros [= <- _ _ _]. apply repeat_length.
Qed.

Lemma envelope_some n s lvl :
  exists r, Synth.envelope (S n) s lvl = Some r.
Proof.
  unfold Synth.envelope.
  destruct (String.eqb s "attack").
  { rewrite ramp_last. destruct (Rle_dec _ _); eauto. }
  destruct (String.eqb s "sustain"); eauto.
  destruct (String.eqb s "release"); eauto.
  rewrite ramp_last. eauto.
Qed.

Lemma render_note_some n midi note :
  exists wave note' rm,
    Synth.render_note (S n)
      (map (fun k => k / SAMPLE_RATE) (arange (S n))) midi note
    = Some (wave, note', rm) /\
    List.length wave = S n.
Proof.
  unfold Synth.render_note.
  destruct (envelope_some n (Synth.env_state note) (Synth.env_level note))
    as ([[[vec lvl'] s'] rm] & E).
  rewrite E, !map_map, last_elt_map_arange.
  do 3 eexists. split; [reflexivity|].
  unfold vmul. rewrite map2_length, !length_map, arange_length.
  rewrite (envelope_length _ _ _ _ _ _ _ E). apply Nat.min_id.
Qed.

Lemma note_loop_some n items sig :
  List.length sig = S n ->
  exists an sig' rm,
    Synth.note_loop (S n)
      (map (fun k => k / SAMPLE_RATE) (arange (S n))) items sig
    = Ok an (sig', rm) /\
    List.length sig' = S n.
Proof.
  revert sig. induction items as [|[midi note] items IH]; intros sig Hs;
    cbn [Synth.note_loop].
  - do 3 eexists. split; [reflexivity|assumption].
  - destruct (render_note_some n midi note) as (wave & note' & rm & E & Hw).
    rewrite E.
    destruct (IH (vadd sig wave)) as (an & sig' & rm' & E' & Hs').
    { unfold vadd. rewrite map2_length, Hs, Hw. apply Nat.min_id. }
    rewrite E'. do 3 eexists. split; [reflexivity|assumption].
Qed.

Lemma render_note_no_frames midi note :
  Synth.render_note 0 (map (fun k => k / SAMPLE_RATE) (arange 0)) midi note
  = None.
Proof.
  unfold Synth.render_note.
  destruct (Synth.envelope _ _ _) as [[[[vec lvl'] s'] rm]|]; reflexivity.
Qed.

(** X2.  The outcomes of [audio_callback] in [synth.py].  With no voice
    it writes [frames] zeros and leaves the state as it is, for every
    [frames].  With a voice and at least one frame it returns normally
    and writes exactly [frames] samples.  With a voice and no frame it
    raises [IndexError] (from [env_vec[-1]] or [phase_array[-1]]) before
    it has changed anything. *)
Theorem synth_audio_callback_outcome st :
  (forall frames,
     Synth.active_notes st = [] ->
     Synth.audio_callback frames st = Ok st (zeros frames)) /\
  (forall n,
     exists st' out,
       Synth.audio_callback (S n) st = Ok st' out /\
       List.length out = S n) /\
  (Synth.active_notes st <> [] ->
   Synth.audio_callback 0 st = Raise st IndexError).
Proof.
  split; [|split].
  - intros frames E. unfold Synth.audio_callback. now rewrite E.
  - intros n. unfold Synth.audio_callback.
    destruct (Synth.active_notes st) as [|kv items] eqn:Ean.
    + do 2 eexists. split; [reflexivity|apply repeat_length].
    + destruct (note_loop_some n (kv :: items) (zeros (S n)))
        as (an & sig & rm & E & Hs); [apply repeat_length|].
      rewrite E. do 2 eexists. split; [reflexivity|].
      now rewrite length_map.
  - intros Hne. unfold Synth.audio_callback.
    destruct (Synth.active_notes st) as [|[midi note] items] eqn:Ean;
      [congruence|].
    cbn [Synth.note_loop]. rewrite render_note_no_frames.
    f_equal. unfold Synth.set_active_notes. rewrite <- Ean.
    now destruct st.
Qed.

Lemma synth_audio_callback_outcome_witness :
  Synth.audio_callback 0 synth_releasing = Raise synth_releasing IndexError.
Proof.
  apply (proj2 (proj2 (synth_audio_callback_outcome synth_releasing))).
  discriminate.
Defined.

Lemma on_press_offset key st :
  (Synth.MIN_OCTAVE_OFFSET <= Synth.current_octave_offset st
   <= Synth.MAX_OCTAVE_OFFSET)%Z ->
  (Synth.MIN_OCTAVE_OFFSET
   <= Synth.current_octave_offset (state_of (Synth.on_press key st))
   <= Synth.MAX_OCTAVE_OFFSET)%Z.
Proof.
  intros H. destruct key as [ch| |]; cbn [Synth.on_press state_of];
    try assumption.
  repeat match goal with
  | |- context [(?a <? ?b)%Z] => destruct (Z.ltb_spec a b)
  | |- context [if ?b then _ else _] => destruct b
  | |- context [match ?x with _ => _ end] => destruct x
  end; cbn [state_of Synth.current_octave_offset Synth.add_note_for_key];
    try assumption; lia.
Qed.

Lemma audio_callback_offset frames st :
  Synth.current_octave_offset (state_of (Synth.audio_callback frames st))
  = Synth.current_octave_offset st.
Proof.
  unfold Synth.audio_callback.
  destruct (Synth.active_notes st); [reflexivity|].
  now destruct (Synth.note_loop _ _ _ _) as [an [sig rm]|an e].
Qed.

Lemma on_release_offset key st :
  Synth.current_octave_offset (Synth.on_release key st)
  = Synth.current_octave_offset st.
Proof.
  destruct key as [ch| |]; cbn [Synth.on_release]; try reflexivity.
  now destruct (Dict.mem _ _ _).
Qed.

(** X3.  The octave offset never leaves
    [[MIN_OCTAVE_OFFSET, MAX_OCTAVE_OFFSET]]: from a state where it lies
    within the bounds (the initial state has offset 0), no sequence of
    key-downs, key-ups and rendered blocks takes it outside. *)
Theorem octave_offset_in_bounds st0 st :
  (Synth.MIN_OCTAVE_OFFSET <= Synth.current_octave_offset st0
   <= Synth.MAX_OCTAVE_OFFSET)%Z ->
  Synth.Run st0 st ->
  (Synth.MIN_OCTAVE_OFFSET <= Synth.current_octave_offset st
   <= Synth.MAX_OCTAVE_OFFSET)%Z.
Proof.
  intros H0 R. induction R as [|st1 st2 st3 R IH S]; [assumption|].
  destruct S as [key s|key s|frames s].
  - apply on_press_offset; auto.
  - rewrite on_release_offset; auto.
  - rewrite audio_callback_offset; auto.
Qed.

Lemma octave_offset_in_bounds_witness :
  (Synth.MIN_OCTAVE_OFFSET
   <= Synth.current_octave_offset
        (state_of (Synth.on_press (KeyChar "b") synth_bank_a_up2))
   <= Synth.MAX_OCTAVE_OFFSET)%Z.
Proof.
  apply (octave_offset_in_bounds Synth.init).
  - unfold Synth.MIN_OCTAVE_OFFSET, Synth.MAX_OCTAVE_OFFSET, Synth.init.
    cbn [Synth.current_octave_offset]. lia.
  - unfold synth_bank_a_up2.
    repeat (eapply Synth.run_step; [|apply Synth.step_press]).
    apply Synth.run_nil.
Defined.
